(** * replace_prints.py: print-to-Logger rewriting of Swift sources

    A shallow embedding of [Utilities/replace_prints.py] and the properties
    of its documented behaviour.

    The script walks a directory, keeps the files whose name ends in
    [.swift], runs three [re.sub] substitutions over the text of each one and
    writes the file back when the text changed.

    Scope of the model: POSIX paths ([/] separates, [os.linesep] is a line
    feed); a tree of regular files and directories, every directory listable
    and every file open to reading and writing, with no symbolic links; a
    file either decodes as UTF-8 or does not; the standard output encodes as
    UTF-8, so that [print] raises on a line that holds a surrogate.

    Layout:
    - [Text]: Python [str] values as lists of code points;
    - [Re]: the part of Python's [re] module the script uses (literals,
      negated sets, [\s], greedy [*] and [+], capture groups, [re.sub]
      with group references in the replacement);
    - [Rewriter]: the three rules of [replace_print_statements];
    - [Fs]: a directory tree, [os.walk], [os.path.join], [open];
    - [Script]: [find_swift_files], [replace_print_statements], [main];
    - [Examples]: the inputs of the spec's examples and two small trees;
    - the theorems. *)

From Stdlib Require Import String Ascii DecimalString.
From Stdlib Require Import List Bool Arith NArith ZArith Lia.
Import ListNotations.

(* ================================================================== *)
(** ** Text *)

Module Text.

(** A Python [str] is a sequence of Unicode code points. *)
Definition char := N.
Definition str := list char.

(** The text of an ASCII literal of this file. *)
Definition py (s : string) : str := map N_of_ascii (list_ascii_of_string s).

(** The code point of an ASCII character. *)
Definition ch (a : ascii) : char := N_of_ascii a.
Arguments ch a%_char.

(** The carriage return. *)
Definition cr : char := 13%N.

(** The double quote, which a literal of this file cannot hold. *)
Definition dq : char := 34%N.

Fixpoint str_eqb (a b : str) : bool :=
  match a, b with
  | [], [] => true
  | x :: a', y :: b' => N.eqb x y && str_eqb a' b'
  | _, _ => false
  end.

Definition mem (c : char) (cs : list char) : bool := existsb (N.eqb c) cs.

(** [s.startswith(w)]. *)
Fixpoint startswith (s w : str) {struct w} : bool :=
  match w, s with
  | [], _ => true
  | x :: w', y :: s' => N.eqb x y && startswith s' w'
  | _ :: _, [] => false
  end.

(** [s.endswith(w)]. *)
Definition endswith (s w : str) : bool :=
  (length w <=? length s) && str_eqb (skipn (length s - length w) s) w.

(** [w in s]: [w] occurs in [s] as a contiguous run. *)
Fixpoint occurs (w s : str) : bool :=
  startswith s w || match s with [] => false | _ :: s' => occurs w s' end.


(** The code points that UTF-8 cannot encode: the surrogates, which a
    [str] holds when a file name or an argument is not valid UTF-8. *)
Definition is_surrogate (c : char) : bool := ((55296 <=? c) && (c <=? 57343))%N.

(** [s.encode('utf-8')] succeeds. *)
Definition encodable (s : str) : bool := forallb (fun c => negb (is_surrogate c)) s.

(** [str(n)] for a natural number. *)
Definition str_of_nat (n : nat) : str := py (NilZero.string_of_uint (Nat.to_uint n)).

End Text.
Import Text.

(* ================================================================== *)
(** ** Regular expressions, as [re] runs them *)

Module Re.

(** One-character classes. *)
Inductive cls :=
| Lit (c : char)             (* [c], or [\c] for punctuation *)
| NotIn (cs : list char)     (* [[^...]] *)
| Space.                     (* [\s] *)

(** A pattern read left to right.  [*] and [+] follow one-character
    classes only, which is all that the script's patterns need. *)
Inductive tok :=
| One (c : cls)
| Many (lo : nat) (c : cls)  (* greedy: [c*] is [Many 0 c], [c+] is [Many 1 c] *)
| Open (i : nat)             (* [(] of group [i] *)
| Close (i : nat).           (* [)] of group [i] *)

Definition regex := list tok.

(** [\s] on [str] patterns: the code points for which [str.isspace] holds. *)
Definition isspace (c : char) : bool :=
  ((9 <=? c) && (c <=? 13) || (28 <=? c) && (c <=? 32)
   || (c =? 133) || (c =? 160) || (c =? 5760)
   || (8192 <=? c) && (c <=? 8202)
   || (c =? 8232) || (c =? 8233) || (c =? 8239) || (c =? 8287) || (c =? 12288))%N.

Definition in_cls (k : cls) (c : char) : bool :=
  match k with
  | Lit x => N.eqb c x
  | NotIn cs => negb (mem c cs)
  | Space => isspace c
  end.

(** Length of the longest prefix of [s] made of characters of [k]. *)
Fixpoint span (k : cls) (s : str) : nat :=
  match s with
  | c :: s' => if in_cls k c then S (span k s') else 0
  | [] => 0
  end.

(** Greedy repetition with backtracking: try [n] repetitions, then one less,
    down to [lo]. *)
Fixpoint backtrack {A} (f : nat -> option A) (lo n : nat) : option A :=
  if n <? lo then None
  else match f n with
       | Some r => Some r
       | None => match n with 0 => None | S n' => backtrack f lo n' end
       end.

(** Group texts by group number; the newest binding is first. *)
Definition marks := list (nat * str).

Fixpoint lookup (i : nat) (m : marks) : option str :=
  match m with
  | [] => None
  | (j, v) :: m' => if Nat.eqb i j then Some v else lookup i m'
  end.

(** The state of a match attempt: where each open group started (the input
    that was left at its [(]) and the text of each closed group. *)
Record mstate := MState { opened : marks; closed : marks }.

Definition initial : mstate := MState [] [].

Definition open_group (i : nat) (s : str) (st : mstate) : mstate :=
  MState ((i, s) :: opened st) (closed st).

Definition close_group (i : nat) (s : str) (st : mstate) : mstate :=
  match lookup i (opened st) with
  | Some s0 => MState (opened st) ((i, firstn (length s0 - length s) s0) :: closed st)
  | None => st
  end.

(** [exec p s st]: match [p] at the start of [s].  The result is the input
    left after the match and the groups. *)
Fixpoint exec (p : regex) (s : str) (st : mstate) : option (str * marks) :=
  match p with
  | [] => Some (s, closed st)
  | One k :: p' =>
      match s with
      | c :: s' => if in_cls k c then exec p' s' st else None
      | [] => None
      end
  | Many lo k :: p' => backtrack (fun n => exec p' (skipn n s) st) lo (span k s)
  | Open i :: p' => exec p' s (open_group i s st)
  | Close i :: p' => exec p' s (close_group i s st)
  end.

(** [pattern.match(s)] at the current position. *)
Definition match_at (p : regex) (s : str) : option (str * marks) := exec p s initial.

(** A replacement template: text and [\i] group references. *)
Inductive piece := Txt (c : char) | Ref (i : nat).
Definition template := list piece.

(** [match.expand(template)]; a group that took no part gives the empty
    string. *)
Fixpoint expand (t : template) (g : marks) : str :=
  match t with
  | [] => []
  | Txt c :: t' => c :: expand t' g
  | Ref i :: t' => match lookup i g with Some v => v | None => [] end ++ expand t' g
  end.

(** Every group text is made of characters with the property [P]. *)
Definition marks_in (P : char -> Prop) (m : marks) : Prop :=
  forall i v, In (i, v) m -> Forall P v.

(** The characters that a template writes itself, apart from the groups. *)
Fixpoint template_chars (t : template) : str :=
  match t with
  | [] => []
  | Txt c :: t' => c :: template_chars t'
  | Ref _ :: t' => template_chars t'
  end.

(** The loop of [re.sub]: at each position try a match; on success emit the
    expanded replacement and go on after the match, otherwise copy one
    character.  After an empty match one character is copied, so every
    round consumes input and [S (length s)] rounds are enough. *)
Fixpoint sub_loop (p : regex) (t : template) (fuel : nat) (s : str) : str :=
  match fuel with
  | 0 => s
  | S fuel' =>
      let copy := match s with [] => [] | c :: s' => c :: sub_loop p t fuel' s' end in
      match match_at p s with
      | Some (rest, g) =>
          expand t g ++
          (if length rest <? length s then sub_loop p t fuel' rest else copy)
      | None => copy
      end
  end.

(** [re.sub(pattern, repl, string)]. *)
Definition re_sub (p : regex) (t : template) (s : str) : str :=
  sub_loop p t (S (length s)) s.

(** [pattern.search(s)]: is there a match at some position? *)
Fixpoint re_search (p : regex) (s : str) : bool :=
  match match_at p s with
  | Some _ => true
  | None => match s with [] => false | _ :: s' => re_search p s' end
  end.

(** *** Reading pattern and template text

    [re.compile] for the syntax above.  Anything else ([.], [|], [?], [{],
    ranges, positive sets, quantified groups, [(?...)]) is refused. *)

Definition is_digit (c : char) : bool := ((48 <=? c) && (c <=? 57))%N.

Definition is_alnum (c : char) : bool :=
  (is_digit c || (65 <=? c) && (c <=? 90) || (97 <=? c) && (c <=? 122))%N.

(** The members of a negated set, up to its closing bracket. *)
Fixpoint parse_set (s : str) (acc : list char) : option (list char * str) :=
  match s with
  | [] => None
  | c :: s' =>
      if (c =? 92)%N then                       (* backslash *)
        match s' with
        | d :: s'' => if is_alnum d then None else parse_set s'' (acc ++ [d])
        | [] => None
        end
      else if (c =? 93)%N then                  (* ] *)
        match acc with [] => None | _ => Some (acc, s') end
      else if (c =? 45)%N then None             (* - *)
      else parse_set s' (acc ++ [c])
  end.

Definition parse_atom (s : str) : option (cls * str) :=
  match s with
  | [] => None
  | c :: s' =>
      if (c =? 92)%N then
        match s' with
        | d :: s'' =>
            if (d =? 115)%N then Some (Space, s'')          (* \s *)
            else if is_alnum d then None
            else Some (Lit d, s'')
        | [] => None
        end
      else if (c =? 91)%N then                              (* [ *)
        match s' with
        | d :: s'' =>
            if (d =? 94)%N then                             (* ^ *)
              match parse_set s'' [] with
              | Some (cs, r) => Some (NotIn cs, r)
              | None => None
              end
            else None
        | [] => None
        end
      else if mem c (py ".^$*+?{}]|") then None
      else Some (Lit c, s')
  end.

Definition quantified (s : str) : bool :=
  match s with c :: _ => mem c (py "*+?{") | [] => false end.

(** The quantifier after an atom, if any. *)
Definition after_atom (k : cls) (s : str) : option (tok * str) :=
  match s with
  | c :: s' =>
      if (c =? 42)%N then if quantified s' then None else Some (Many 0 k, s')
      else if (c =? 43)%N then if quantified s' then None else Some (Many 1 k, s')
      else if quantified s then None
      else Some (One k, s)
  | [] => Some (One k, s)
  end.

(** Groups are numbered by their opening parenthesis, from 1. *)
Fixpoint parse_loop (fuel : nat) (s : str) (next : nat) (stack : list nat)
  : option regex :=
  match fuel with
  | 0 => None
  | S fuel' =>
      match s with
      | [] => match stack with [] => Some [] | _ => None end
      | c :: s' =>
          if (c =? 40)%N then                               (* ( *)
            match s' with
            | d :: _ =>
                if (d =? 63)%N then None
                else option_map (cons (Open next))
                       (parse_loop fuel' s' (S next) (next :: stack))
            | [] => None
            end
          else if (c =? 41)%N then                          (* ) *)
            match stack with
            | i :: stack' =>
                if quantified s' then None
                else option_map (cons (Close i)) (parse_loop fuel' s' next stack')
            | [] => None
            end
          else
            match parse_atom s with
            | Some (k, r) =>
                match after_atom k r with
                | Some (t, r') => option_map (cons t) (parse_loop fuel' r' next stack)
                | None => None
                end
            | None => None
            end
      end
  end.

Definition re_compile (text : str) : option regex :=
  parse_loop (S (length text)) text 1 [].

(** A replacement template: [\1] to [\9] are group references. *)
Fixpoint parse_template (s : str) : option template :=
  match s with
  | [] => Some []
  | c :: s' =>
      if (c =? 92)%N then
        match s' with
        | d :: s'' =>
            if (49 <=? d)%N && (d <=? 57)%N
               && negb (match s'' with e :: _ => is_digit e | [] => false end)
            then option_map (cons (Ref (N.to_nat (d - 48)))) (parse_template s'')
            else None
        | [] => None
        end
      else option_map (cons (Txt c)) (parse_template s')
  end.

(** A run of literal characters as a pattern, and as a template. *)
Definition lits (s : str) : regex := map (fun c => One (Lit c)) s.
Definition txt (s : str) : template := map Txt s.

End Re.
Import Re.

(* ================================================================== *)
(** ** The rewriting rules of [replace_print_statements] *)

Module Rewriter.

(** The three pattern texts, as the script writes them (raw strings). *)
Definition pattern1_text : str :=
  py "print\(" ++ dq :: py "\[([^\]]+)\]\s*([^" ++ dq :: py "]+)" ++ dq :: py "\)".
Definition pattern2_text : str :=
  py "print\(" ++ dq :: py "([^" ++ dq :: py "]+)" ++ dq :: py "\)".
Definition pattern3_text : str :=
  py "print\(" ++ dq :: py "([^" ++ dq :: py "]+)" ++ dq :: py ",\s*([^)]+)\)".

Definition replacement1_text : str :=
  py "Logger.shared.log(" ++ dq :: py "\2" ++ dq :: py ", category: .\1, level: .info)".
Definition replacement2_text : str :=
  py "Logger.shared.log(" ++ dq :: py "\1" ++ dq :: py ", category: .general, level: .info)".
Definition replacement3_text : str :=
  py "Logger.shared.log(" ++ dq :: py "\1: \2" ++ dq :: py ", category: .general, level: .info)".

(** The text every pattern starts with: [print(] and a double quote. *)
Definition print_open : str := py "print(" ++ [dq].

(** The compiled patterns. *)
Definition pattern1 : regex :=                       (* print("[Category] message") *)
  lits print_open ++
  [One (Lit (ch "[")); Open 1; Many 1 (NotIn [ch "]"]); Close 1; One (Lit (ch "]"));
   Many 0 Space; Open 2; Many 1 (NotIn [dq]); Close 2; One (Lit dq); One (Lit (ch ")"))].

Definition pattern2 : regex :=                       (* print("message") *)
  lits print_open ++
  [Open 1; Many 1 (NotIn [dq]); Close 1; One (Lit dq); One (Lit (ch ")"))].

Definition pattern3 : regex :=                       (* print("message", variable) *)
  lits print_open ++
  [Open 1; Many 1 (NotIn [dq]); Close 1; One (Lit dq); One (Lit (ch ","));
   Many 0 Space; Open 2; Many 1 (NotIn [ch ")"]); Close 2; One (Lit (ch ")"))].

Definition replacement1 : template :=
  txt (py "Logger.shared.log(" ++ [dq]) ++ Ref 2 ::
  txt (dq :: py ", category: .") ++ Ref 1 :: txt (py ", level: .info)").

Definition replacement2 : template :=
  txt (py "Logger.shared.log(" ++ [dq]) ++ Ref 1 ::
  txt (dq :: py ", category: .general, level: .info)").

Definition replacement3 : template :=
  txt (py "Logger.shared.log(" ++ [dq]) ++ Ref 1 :: txt (py ": ") ++ Ref 2 ::
  txt (dq :: py ", category: .general, level: .info)").

Definition patterns : list (regex * template) :=
  [ (pattern1, replacement1); (pattern2, replacement2); (pattern3, replacement3) ].

(** [for pattern, replacement in patterns: content = re.sub(...)]. *)
Definition apply_patterns (rules : list (regex * template)) (content : str) : str :=
  fold_left (fun content rule => re_sub (fst rule) (snd rule) content) rules content.

(** The text [replace_print_statements] computes from a file's text. *)
Definition rewrite (content : str) : str := apply_patterns patterns content.

(** The characters that the replacements write themselves. *)
Definition replacement_chars : str :=
  flat_map (fun rule => template_chars (snd rule)) patterns.

(** [content != original_content] after the rules. *)
Definition changed (original_content : str) : bool :=
  negb (str_eqb (rewrite original_content) original_content).

(** The call [Logger.shared.log("message", category: .category, level: .info)]. *)
Definition logger_call (message category : str) : str :=
  py "Logger.shared.log(" ++ dq :: message ++ dq :: py ", category: ." ++ category
     ++ py ", level: .info)".

End Rewriter.
Import Rewriter.

(* ================================================================== *)
(** ** Files and directories *)

Module Fs.

(** What a regular file holds: bytes that decode as UTF-8 to a text, or
    bytes that do not. *)
Inductive data := Utf8 (text : str) | Undecodable.

(** A directory tree.  The entries of a directory are in the order in which
    [os.scandir] lists them. *)
#[local] Unset Elimination Schemes.
Inductive node :=
| File (d : data)
| Dir (entries : list (str * node)).
#[local] Set Elimination Schemes.

Definition is_dir (n : node) : bool :=
  match n with Dir _ => true | File _ => false end.

Definition sep : char := ch "/".

(** [p.split('/')], with [cur] the component being read. *)
Fixpoint split_from (cur : str) (p : str) : list str :=
  match p with
  | [] => [cur]
  | c :: p' => if N.eqb c sep then cur :: split_from [] p' else split_from (cur ++ [c]) p'
  end.

Definition split (p : str) : list str := split_from [] p.

Fixpoint child (name : str) (es : list (str * node)) : option node :=
  match es with
  | [] => None
  | (n, c) :: es' => if str_eqb name n then Some c else child name es'
  end.

(** Path resolution from the node [n], whose ancestors are [up] (nearest
    first).  An empty component or [.] stays in the directory, [..] goes up
    (and stays at the top), a name goes to that entry.  Every component is
    looked up in a directory. *)
Fixpoint lookup_path (up : list node) (n : node) (cs : list str) : option node :=
  match cs with
  | [] => Some n
  | c :: cs' =>
      match n with
      | File _ => None
      | Dir es =>
          if str_eqb c [] || str_eqb c (py ".") then lookup_path up n cs'
          else if str_eqb c (py "..") then
            match up with
            | [] => lookup_path [] n cs'
            | m :: up' => lookup_path up' m cs'
            end
          else
            match child c es with
            | Some m => lookup_path (n :: up) m cs'
            | None => None
            end
      end
  end.

(** The node a path names.  The tree is both the root directory and the
    working directory.  The empty path names nothing. *)
Definition resolve (root : node) (p : str) : option node :=
  match p with
  | [] => None
  | _ => lookup_path [] root (split p)
  end.

(** The names from the top down to the place a path names. *)
Fixpoint normalize (stack : list str) (cs : list str) : list str :=
  match cs with
  | [] => rev stack
  | c :: cs' =>
      if str_eqb c [] || str_eqb c (py ".") then normalize stack cs'
      else if str_eqb c (py "..") then normalize (tl stack) cs'
      else normalize (c :: stack) cs'
  end.

(** Replace the entry [name], or add it after the others. *)
Fixpoint set_child (name : str) (new : node) (es : list (str * node))
  : list (str * node) :=
  match es with
  | [] => [(name, new)]
  | (n, c) :: es' =>
      if str_eqb name n then (n, new) :: es' else (n, c) :: set_child name new es'
  end.

(** Put [new] at the place [names] below [n]. *)
Fixpoint store (names : list str) (new : node) (n : node) : option node :=
  match names with
  | [] => Some new
  | c :: cs =>
      match n with
      | File _ => None
      | Dir es =>
          match cs with
          | [] => Some (Dir (set_child c new es))
          | _ =>
              match child c es with
              | Some m =>
                  match store cs new m with
                  | Some m' => Some (Dir (set_child c m' es))
                  | None => None
                  end
              | None => None
              end
          end
      end
  end.

(** What [os.path.join] puts before a name: the directory and a
    separator, when the directory does not end in one. *)
Definition dir_prefix (top : str) : str :=
  match top with
  | [] => []
  | _ => if endswith top [sep] then top else top ++ [sep]
  end.

(** [os.path.join(a, b)]. *)
Definition os_path_join (a b : str) : str :=
  if startswith b [sep] then b
  else match a with
       | [] => b
       | _ => if endswith a [sep] then a ++ b else a ++ sep :: b
       end.

Definition dirnames (es : list (str * node)) : list str :=
  map fst (filter (fun e => is_dir (snd e)) es).

Definition filenames (es : list (str * node)) : list str :=
  map fst (filter (fun e => negb (is_dir (snd e))) es).

(** [os.walk(top)], top down, on the node [n] that [top] names: the triple
    [(top, dirs, files)] of the directory, then the walk of each of [dirs].
    What is not a directory cannot be listed; [os.walk] ignores that error
    and yields nothing. *)
Fixpoint walk (top : str) (n : node) : list (str * list str * list str) :=
  match n with
  | File _ => []
  | Dir es =>
      (top, dirnames es, filenames es)
        :: flat_map (fun e : str * node =>
                       let (name, c) := e in
                       if is_dir c then walk (os_path_join top name) c else [])
             es
  end.

Definition os_walk (root : node) (top : str) : list (str * list str * list str) :=
  match resolve root top with
  | Some n => walk top n
  | None => []
  end.

(** Text mode reading with universal newlines: [\r\n] and [\r] are read as
    [\n]. *)
Fixpoint universal_newlines (s : str) : str :=
  match s with
  | [] => []
  | c :: s' =>
      if N.eqb c 13 then
        match s' with
        | d :: s'' => if N.eqb d 10 then 10%N :: universal_newlines s''
                      else 10%N :: universal_newlines s'
        | [] => [10%N]
        end
      else c :: universal_newlines s'
  end.

(** *** What the tree holds *)

(** The node at the end of a list of names, each one looked up in the
    directory before it. *)
Fixpoint lookup_names (n : node) (names : list str) : option node :=
  match names with
  | [] => Some n
  | c :: cs =>
      match n with
      | File _ => None
      | Dir es =>
          match child c es with
          | Some m => lookup_names m cs
          | None => None
          end
      end
  end.

(** [reaches n names m]: going down from [n] through entries called [names],
    one reaches [m]. *)
Inductive reaches : node -> list str -> node -> Prop :=
| reaches_here (n : node) : reaches n [] n
| reaches_down (es : list (str * node)) (name : str) (c : node)
    (names : list str) (m : node) :
    In (name, c) es -> reaches c names m -> reaches (Dir es) (name :: names) m.

(** The path of what is [names] below the directory called [top], as
    [os.walk] and [find_swift_files] build it. *)
Definition path_below (top : str) (names : list str) : str :=
  fold_left os_path_join names top.

(** Two trees with the same directories and the same names, where a file
    that decodes in the first decodes in the second. *)
#[local] Unset Elimination Schemes.
Inductive shape : node -> node -> Prop :=
| shape_file (d d' : data) :
    (d' = Undecodable -> d = Undecodable) -> shape (File d) (File d')
| shape_dir (es es' : list (str * node)) :
    Forall2 (fun e e' => fst e = fst e' /\ shape (snd e) (snd e')) es es' ->
    shape (Dir es) (Dir es').
#[local] Set Elimination Schemes.

Definition decodes (d : data) : bool :=
  match d with Utf8 _ => true | Undecodable => false end.

(** Two trees with the same directories and the same names, where the same
    files decode. *)
#[local] Unset Elimination Schemes.
Inductive alike : node -> node -> Prop :=
| alike_file (d d' : data) : decodes d = decodes d' -> alike (File d) (File d')
| alike_dir (es es' : list (str * node)) :
    Forall2 (fun e e' => fst e = fst e' /\ alike (snd e) (snd e')) es es' ->
    alike (Dir es) (Dir es').
#[local] Set Elimination Schemes.

(** The names that a file system gives to entries: not empty, not [.] or
    [..], without a separator. *)
Definition valid_name (name : str) : bool :=
  negb (str_eqb name []) && negb (str_eqb name (py "."))
  && negb (str_eqb name (py "..")) && negb (mem sep name).

(** A tree as a file system holds it: in every directory the names are
    valid and no two entries have the same name. *)
#[local] Unset Elimination Schemes.
Inductive wf : node -> Prop :=
| wf_file (d : data) : wf (File d)
| wf_dir (es : list (str * node)) :
    NoDup (map fst es) ->
    Forall (fun e => valid_name (fst e) = true /\ wf (snd e)) es ->
    wf (Dir es).
#[local] Set Elimination Schemes.

(** The same, as a test. *)
Fixpoint nodupb (l : list str) : bool :=
  match l with
  | [] => true
  | x :: l' => negb (existsb (str_eqb x) l') && nodupb l'
  end.

Fixpoint wfb (n : node) : bool :=
  match n with
  | File _ => true
  | Dir es =>
      nodupb (map fst es)
      && forallb (fun e : str * node => let (name, c) := e in valid_name name && wfb c) es
  end.

(** [stack] and [up] are the names and the nodes from [n] up to [root]. *)
Inductive chain (root : node) : list str -> list node -> node -> Prop :=
| chain_top : chain root [] [] root
| chain_down (stack : list str) (up : list node) (es : list (str * node))
    (c : str) (m : node) :
    chain root stack up (Dir es) -> child c es = Some m ->
    chain root (c :: stack) (Dir es :: up) m.

End Fs.
Import Fs.

(* ================================================================== *)
(** ** The script *)

Module Script.

(** What a run can raise.  [SystemExit] is what [sys.exit] raises. *)
Inductive exn :=
| SystemExit (code : Z)
| OSError                    (* no such file, not a directory, is a directory *)
| UnicodeDecodeError
| UnicodeEncodeError.

(** What a run does to files. *)
Inductive event :=
| Read (path : str)
| Write (path : str) (content : str).

Definition event_path (e : event) : str :=
  match e with Read path => path | Write path _ => path end.

(** The paths of the files read, oldest first. *)
Fixpoint read_paths (events : list event) : list str :=
  match events with
  | [] => []
  | Read path :: events' => path :: read_paths events'
  | Write _ _ :: events' => read_paths events'
  end.

(** The paths of the files written, oldest first. *)
Fixpoint written_paths (events : list event) : list str :=
  match events with
  | [] => []
  | Read _ :: events' => written_paths events'
  | Write path _ :: events' => path :: written_paths events'
  end.

(** The state a run works on: the files, what was printed (one entry for
    each call of [print]) and what was done to files, oldest first. *)
Record world := World { disk : node; stdout : list str; trace : list event }.

Inductive result (A : Type) :=
| Return (a : A)
| Raise (e : exn).
Arguments Return {A} a.
Arguments Raise {A} e.

(** Computations that read and change the world and may raise. *)
Definition M (A : Type) : Type := world -> result A * world.

Definition ret {A} (a : A) : M A := fun w => (Return a, w).

Definition raise {A} (e : exn) : M A := fun w => (Raise e, w).

Definition bind {A B} (m : M A) (k : A -> M B) : M B :=
  fun w => match m w with
           | (Return a, w') => k a w'
           | (Raise e, w') => (Raise e, w')
           end.

Notation "x <- m ;; k" := (bind m (fun x => k))
  (at level 61, m at next level, right associativity).
Notation "m ;;; k" := (bind m (fun _ => k))
  (at level 61, right associativity).

(** [print(line)], on a standard output that encodes as UTF-8: a line
    that cannot be encoded raises and nothing of it is written. *)
Definition print (line : str) : M unit :=
  fun w =>
    if encodable line
    then (Return tt, World (disk w) (stdout w ++ [line]) (trace w))
    else (Raise UnicodeEncodeError, w).

Definition sys_exit {A} (code : Z) : M A := raise (SystemExit code).

Definition os_path_exists (path : str) : M bool :=
  fun w => (Return (match resolve (disk w) path with Some _ => true | None => false end), w).

(** [with open(path, 'r', encoding='utf-8') as f: f.read()]. *)
Definition read_file (path : str) : M str :=
  fun w =>
    match resolve (disk w) path with
    | Some (File d) =>
        let w' := World (disk w) (stdout w) (trace w ++ [Read path]) in
        match d with
        | Utf8 text => (Return (universal_newlines text), w')
        | Undecodable => (Raise UnicodeDecodeError, w')
        end
    | Some (Dir _) | None => (Raise OSError, w)
    end.

(** [with open(path, 'w', encoding='utf-8') as f: f.write(content)].  The
    file is made when it is not there and its directory is. *)
Definition write_file (path : str) (content : str) : M unit :=
  fun w =>
    match resolve (disk w) path with
    | Some (Dir _) => (Raise OSError, w)
    | _ =>
        match store (normalize [] (split path)) (File (Utf8 content)) (disk w) with
        | Some root' =>
            (Return tt, World root' (stdout w) (trace w ++ [Write path content]))
        | None => (Raise OSError, w)
        end
    end.

Definition dot_swift : str := py ".swift".

(** The file at [path] is there and decodes. *)
Definition readable (root : node) (path : str) : bool :=
  match resolve root path with
  | Some (File (Utf8 _)) => true
  | _ => false
  end.

(** The inner loop of [find_swift_files]: the files of one directory. *)
Fixpoint scan_files (root : str) (files : list str) (swift_files : list str)
  : list str :=
  match files with
  | [] => swift_files
  | file :: files' =>
      scan_files root files'
        (if endswith file dot_swift
         then swift_files ++ [os_path_join root file]
         else swift_files)
  end.

(** The outer loop, over what [os.walk] yields. *)
Fixpoint scan_walk (triples : list (str * list str * list str))
  (swift_files : list str) : list str :=
  match triples with
  | [] => swift_files
  | (root, dirs, files) :: triples' =>
      scan_walk triples' (scan_files root files swift_files)
  end.

(** The file at [path] is there, decodes, and its text holds no [print(]
    followed by a double quote. *)
Definition print_free (root : node) (path : str) : bool :=
  match resolve root path with
  | Some (File (Utf8 text)) => negb (occurs print_open (universal_newlines text))
  | _ => false
  end.

(** What the loops of [find_swift_files] collect from the node [n] that
    the path [top] names. *)
Definition swift_files_below (top : str) (n : node) : list str :=
  scan_walk (walk top n) [].

(** What [find_swift_files] returns on the tree [root]. *)
Definition swift_files_of (root : node) (directory : str) : list str :=
  scan_walk (os_walk root directory) [].

Definition find_swift_files (directory : str) : M (list str) :=
  fun w => (Return (swift_files_of (disk w) directory), w).

Definition replace_print_statements (file_path : str) : M bool :=
  content <- read_file file_path ;;
  let original_content := content in
  let content := apply_patterns patterns content in
  if negb (str_eqb content original_content) then
    write_file file_path content ;;;
    ret true
  else ret false.

Definition modified_file_line (file_path : str) : str :=
  py "Modified: " ++ file_path.

(** The loop of [main] over the files found. *)
Fixpoint process (swift_files : list str) (modified_files : list str)
  : M (list str) :=
  match swift_files with
  | [] => ret modified_files
  | file_path :: rest =>
      changed <- replace_print_statements file_path ;;
      if changed then
        print (modified_file_line file_path) ;;;
        process rest (modified_files ++ [file_path])
      else process rest modified_files
  end.

Definition usage_line : str := py "Usage: python replace_prints.py <directory>".

Definition missing_line (directory : str) : str :=
  py "Directory " ++ directory ++ py " does not exist".

Definition found_line (n : nat) : str :=
  py "Found " ++ str_of_nat n ++ py " Swift files".

Definition modified_line (n : nat) : str :=
  10%N :: py "Modified " ++ str_of_nat n ++ py " files".

Definition note_line : str :=
  py "Note: You may need to manually review and adjust Logger categories".

(** [main], with [sys.argv] as its argument. *)
Definition main (argv : list str) : M unit :=
  (if negb (length argv =? 2) then
     print usage_line ;;;
     sys_exit 1
   else ret tt) ;;;
  let directory := nth 1 argv [] in
  found <- os_path_exists directory ;;
  (if negb found then
     print (missing_line directory) ;;;
     sys_exit 1
   else ret tt) ;;;
  swift_files <- find_swift_files directory ;;
  print (found_line (length swift_files)) ;;;
  modified_files <- process swift_files [] ;;
  print (modified_line (length modified_files)) ;;;
  print note_line.

(** The exit status of the interpreter: 0 when [main] returns, the code of
    [sys.exit], 1 after an exception that nothing catches. *)
Definition exit_status (r : result unit) : Z :=
  match r with
  | Return _ => 0
  | Raise (SystemExit code) => code
  | Raise _ => 1
  end.

(** A run of the script on a tree of files. *)
Definition run (argv : list str) (root : node) : Z * world :=
  let (r, w) := main argv (World root [] []) in (exit_status r, w).

End Script.
Import Script.

(* ================================================================== *)
(** ** The spec's examples *)

Module Examples.

(** [print("[Network] Request failed")] *)
Definition bracketed : str :=
  py "print(" ++ dq :: py "[Network] Request failed" ++ dq :: py ")".

(** [print("Hello world")] *)
Definition plain : str := py "print(" ++ dq :: py "Hello world" ++ dq :: py ")".

(** [print("Value is", x)] *)
Definition with_argument : str :=
  py "print(" ++ dq :: py "Value is" ++ dq :: py ", x)".


(** A tree with one Swift file [src/a.swift] and one other file. *)
Definition project (d : data) : node :=
  Dir [ (py "src", Dir [ (py "a.swift", File d); (py "notes.txt", File d) ]) ].

Definition script : str := py "replace_prints.py".

(** A tree with one Swift file whose name holds a surrogate, as [os.walk]
    gives it for a name that is not valid UTF-8. *)
Definition odd_name : str := py "a" ++ 56448%N :: py ".swift".
Definition odd_project : node :=
  Dir [ (py "src", Dir [ (odd_name, File (Utf8 plain)) ]) ].

(** A deeper tree: Swift files at two depths, other files, a directory
    whose name ends in [.swift], and a Swift file beside the directory that
    is scanned. *)
Definition app : node :=
  Dir [ (py "App",
         Dir [ (py "Main.swift", File (Utf8 plain));
               (py "README.md", File (Utf8 plain));
               (py "Views",
                Dir [ (py "Deep",
                       Dir [ (py "Cell.swift", File (Utf8 bracketed));
                             (py "Cell.swift.bak", File (Utf8 bracketed)) ]);
                      (py "old.swift", Dir [ (py "notes.txt", File (Utf8 plain)) ]) ]) ]);
        (py "Other.swift", File (Utf8 plain)) ].

End Examples.

(* ================================================================== *)
(** ** Calls of [print], as the comments of the script write them *)

Module Calls.

(** [print("message")] *)
Definition print_plain (message : str) : str :=
  print_open ++ message ++ [dq; ch ")"].

(** [print("[tag]ws message")], with [ws] the white space after the tag. *)
Definition print_bracketed (tag ws message : str) : str :=
  print_open ++ ch "[" :: tag ++ ch "]" :: ws ++ message ++ [dq; ch ")"].

(** [print("message",ws argument)], with [ws] the white space after the
    comma. *)
Definition print_with_argument (message ws argument : str) : str :=
  print_open ++ message ++ dq :: ch "," :: ws ++ argument ++ [ch ")"].

(** The text starts with white space. *)
Definition leading_space (s : str) : bool :=
  match s with c :: _ => isspace c | [] => false end.

(** [print(], the text of [print_open] before its double quote. *)
Definition print_paren : str := py "print(".

End Calls.
Import Calls.

(* ================================================================== *)
(** ** Texts made of calls of [print] and of text without [print(] *)

Module Document.













End Document.
Import Document.

(* ================================================================== *)
(** ** The patterns are the ones the script writes *)

Lemma pattern1_compiled : re_compile pattern1_text = Some pattern1.
Proof. vm_compute. reflexivity. Qed.
Lemma pattern2_compiled : re_compile pattern2_text = Some pattern2.
Proof. vm_compute. reflexivity. Qed.
Lemma pattern3_compiled : re_compile pattern3_text = Some pattern3.
Proof. vm_compute. reflexivity. Qed.
Lemma replacement1_parsed : parse_template replacement1_text = Some replacement1.
Proof. vm_compute. reflexivity. Qed.
Lemma replacement2_parsed : parse_template replacement2_text = Some replacement2.
Proof. vm_compute. reflexivity. Qed.
Lemma replacement3_parsed : parse_template replacement3_text = Some replacement3.
Proof. vm_compute. reflexivity. Qed.



(* ================================================================== *)
(** ** Facts about text *)

Section TextFacts.

Lemma str_eqb_eq (a b : str) : str_eqb a b = true <-> a = b.
Proof.
  revert b; induction a as [|x a IH]; intros [|y b]; simpl; split;
    try congruence; try reflexivity.
  - intros H. apply andb_true_iff in H as [Hx Hab].
    apply N.eqb_eq in Hx. apply IH in Hab. congruence.
  - intros H. injection H as -> ->.
    rewrite N.eqb_refl. simpl. apply IH. reflexivity.
Qed.

Lemma str_eqb_refl (a : str) : str_eqb a a = true.
Proof. apply str_eqb_eq. reflexivity. Qed.

Lemma str_eqb_neq (a b : str) : str_eqb a b = false <-> a <> b.
Proof.
  split.
  - intros H E. apply str_eqb_eq in E. congruence.
  - intros H. destruct (str_eqb a b) eqn:E; [|reflexivity].
    apply str_eqb_eq in E. contradiction.
Qed.

Lemma startswith_split (s w : str) :
  startswith s w = true -> s = w ++ skipn (length w) s.
Proof.
  revert s; induction w as [|x w IH]; intros s H; simpl in *.
  - reflexivity.
  - destruct s as [|y s]; [discriminate|].
    apply andb_true_iff in H as [Hx Hs]. apply N.eqb_eq in Hx. subst y.
    simpl. f_equal. apply IH. exact Hs.
Qed.

Lemma startswith_app (w r : str) : startswith (w ++ r) w = true.
Proof. induction w as [|x w IH]; simpl; [reflexivity|]. rewrite N.eqb_refl. exact IH. Qed.

Lemma occurs_here (w s : str) : occurs w s = false -> startswith s w = false.
Proof. destruct s; simpl; intros H; apply orb_false_iff in H; tauto. Qed.

Lemma occurs_tail (w : str) (c : char) (s : str) :
  occurs w (c :: s) = false -> occurs w s = false.
Proof. simpl. intros H. apply orb_false_iff in H. tauto. Qed.

End TextFacts.

(* ================================================================== *)
(** ** Facts about matching and substitution *)

Section ReFacts.

Lemma backtrack_some {A} (f : nat -> option A) (lo n : nat) (r : A) :
  backtrack f lo n = Some r -> exists k, lo <= k <= n /\ f k = Some r.
Proof.
  induction n as [|n IH]; simpl.
  - destruct (0 <? lo) eqn:E; [discriminate|].
    apply Nat.ltb_ge in E. destruct (f 0) eqn:F; [|discriminate].
    intros [= ->]. exists 0. split; [lia | exact F].
  - destruct (S n <? lo) eqn:E; [discriminate|].
    apply Nat.ltb_ge in E. destruct (f (S n)) eqn:F.
    + intros [= ->]. exists (S n). split; [lia | exact F].
    + intros H. apply IH in H as (k & Hk & Fk). exists k. split; [lia | exact Fk].
Qed.

(** A repetition that matches took between [lo] and [span k s] characters. *)
Lemma exec_many (lo : nat) (k : cls) (p : regex) (s : str) (st : mstate) r :
  exec (Many lo k :: p) s st = Some r ->
  exists n, lo <= n <= span k s /\ exec p (skipn n s) st = Some r.
Proof. simpl. apply backtrack_some. Qed.

Lemma exec_one (k : cls) (p : regex) (s : str) (st : mstate) r :
  exec (One k :: p) s st = Some r ->
  exists c s', s = c :: s' /\ in_cls k c = true /\ exec p s' st = Some r.
Proof.
  simpl. destruct s as [|c s']; [discriminate|].
  destruct (in_cls k c) eqn:E; [|discriminate].
  intros H. exists c, s'. auto.
Qed.

Lemma exec_lit (x : char) (p : regex) (s : str) (st : mstate) r :
  exec (One (Lit x) :: p) s st = Some r ->
  exists s', s = x :: s' /\ exec p s' st = Some r.
Proof.
  intros H. apply exec_one in H as (c & s' & -> & Hc & H).
  simpl in Hc. apply N.eqb_eq in Hc. subst c. exists s'. auto.
Qed.

(** Literal text at the head of a pattern is compared with the input. *)
Lemma exec_lits (w : str) (p : regex) (s : str) (st : mstate) :
  exec (lits w ++ p) s st =
  if startswith s w then exec p (skipn (length w) s) st else None.
Proof.
  revert s; induction w as [|x w IH]; intros s; simpl.
  - reflexivity.
  - destruct s as [|y s]; [reflexivity|].
    rewrite (N.eqb_sym x y). destruct (N.eqb y x); simpl; [apply IH | reflexivity].
Qed.

Lemma span_le (k : cls) (s : str) : span k s <= length s.
Proof. induction s as [|c s IH]; simpl; [|destruct (in_cls k c); simpl]; lia. Qed.

(** The first [n] characters of a span are in the class. *)
Lemma span_firstn (k : cls) (s : str) (n : nat) :
  n <= span k s -> Forall (fun c => in_cls k c = true) (firstn n s).
Proof.
  revert n; induction s as [|c s IH]; intros n Hn; simpl in *.
  - rewrite firstn_nil. constructor.
  - destruct n as [|n]; [constructor|].
    destruct (in_cls k c) eqn:E; [|lia].
    simpl. constructor; [exact E | apply IH; lia].
Qed.

(** More fuel than characters is enough fuel. *)
Lemma sub_loop_fuel (p : regex) (t : template) (f1 f2 : nat) (s : str) :
  length s < f1 -> length s < f2 -> sub_loop p t f1 s = sub_loop p t f2 s.
Proof.
  revert f2 s; induction f1 as [|f1 IH]; intros f2 s H1 H2; [lia|].
  destruct f2 as [|f2]; [lia|]. simpl.
  assert (C : match s with [] => [] | c :: s' => c :: sub_loop p t f1 s' end =
              match s with [] => [] | c :: s' => c :: sub_loop p t f2 s' end).
  { destruct s as [|c s']; [reflexivity|]. simpl in *. f_equal. apply IH; lia. }
  destruct (match_at p s) as [[rest g]|]; [|exact C].
  f_equal. destruct (length rest <? length s) eqn:E; [|exact C].
  apply Nat.ltb_lt in E. apply IH; lia.
Qed.

Lemma re_sub_fuel (p : regex) (t : template) (fuel : nat) (s : str) :
  length s < fuel -> sub_loop p t fuel s = re_sub p t s.
Proof. intros H. apply sub_loop_fuel; [exact H | lia]. Qed.

(** Without a match anywhere, [re.sub] gives its input back. *)
Lemma sub_loop_no_match (p : regex) (t : template) (fuel : nat) (s : str) :
  re_search p s = false -> sub_loop p t fuel s = s.
Proof.
  revert s; induction fuel as [|fuel IH]; intros s H; [reflexivity|].
  simpl. destruct s as [|c s']; simpl in H.
  - destruct (match_at p []); [discriminate | reflexivity].
  - destruct (match_at p (c :: s')); [discriminate|].
    f_equal. apply IH. exact H.
Qed.

Lemma re_sub_no_match (p : regex) (t : template) (s : str) :
  re_search p s = false -> re_sub p t s = s.
Proof. apply sub_loop_no_match. Qed.

(** [re.sub] step by step, whatever the fuel: after a match that is not
    empty it goes on behind the match, and where there is no match it copies
    a character. *)
Lemma re_sub_match (p : regex) (t : template) (s rest : str) (g : marks) :
  match_at p s = Some (rest, g) -> length rest < length s ->
  re_sub p t s = expand t g ++ re_sub p t rest.
Proof.
  intros H L. unfold re_sub at 1. simpl. rewrite H.
  apply Nat.ltb_lt in L as L'. rewrite L'. f_equal.
  apply re_sub_fuel. exact L.
Qed.


(** A pattern that starts with the text [w] matches only where [w] is. *)
Lemma search_needs_text (w : str) (p : regex) (s : str) :
  occurs w s = false -> re_search (lits w ++ p) s = false.
Proof.
  induction s as [|c s IH]; intros H; simpl;
    unfold match_at; rewrite exec_lits, (occurs_here _ _ H); [reflexivity|].
  apply IH. exact (occurs_tail _ _ _ H).
Qed.

End ReFacts.

(* ================================================================== *)
(** ** The rewriter *)

Section RewriterFacts.

Lemma exec_open (i : nat) (p : regex) (s : str) (st : mstate) :
  exec (Open i :: p) s st = exec p s (open_group i s st).
Proof. reflexivity. Qed.

Lemma exec_close (i : nat) (p : regex) (s : str) (st : mstate) :
  exec (Close i :: p) s st = exec p s (close_group i s st).
Proof. reflexivity. Qed.

(** The text of a group that was opened at [s] and closed [n] characters
    later. *)
Lemma group_text (s : str) (n : nat) :
  n <= length s -> firstn (length s - length (skipn n s)) s = firstn n s.
Proof. intros H. rewrite length_skipn. f_equal. lia. Qed.

Lemma expand_txt (w : str) (t : template) (g : marks) :
  expand (txt w ++ t) g = w ++ expand t g.
Proof. induction w as [|c w IH]; simpl; [|rewrite IH]; reflexivity. Qed.

Lemma expand_txt_end (w : str) (g : marks) : expand (txt w) g = w.
Proof. induction w as [|c w IH]; simpl; [|rewrite IH]; reflexivity. Qed.

(** Where the first pattern matches, the input reads: [print], an opening
    parenthesis, a double quote, a tag in square brackets, white space, a
    message, a double quote and a closing parenthesis.  The groups are the tag
    and the message, and the replacement is the call of the logger with that
    message and that tag. *)
Lemma bracket_match (s rest : str) (g : marks) :
  match_at pattern1 s = Some (rest, g) ->
  exists tag ws message,
    s = print_open ++ ch "[" :: tag ++ ch "]" :: ws ++ message ++ dq :: ch ")" :: rest
    /\ expand replacement1 g = logger_call message tag
    /\ re_sub pattern1 replacement1 s
       = logger_call message tag ++ re_sub pattern1 replacement1 rest.
Proof.
  intros M.
  enough (E : exists tag ws message,
             s = print_open ++ ch "[" :: tag ++ ch "]" :: ws ++ message
                   ++ dq :: ch ")" :: rest
             /\ expand replacement1 g = logger_call message tag).
  { destruct E as (tag & ws & message & Es & Eg).
    exists tag, ws, message. split; [exact Es|]. split; [exact Eg|].
    rewrite <- Eg. apply re_sub_match; [exact M|].
    rewrite Es. rewrite length_app. simpl. rewrite length_app. simpl.
    rewrite !length_app. simpl. lia. }
  revert M.
  unfold match_at, pattern1. rewrite exec_lits.
  destruct (startswith s print_open) eqn:P; [|discriminate].
  apply startswith_split in P. intros H.
  apply exec_lit in H as (s2 & E1 & H).
  rewrite exec_open in H. apply exec_many in H as (n1 & Hn1 & H).
  rewrite exec_close in H. unfold close_group, open_group, initial in H.
  cbn [lookup opened closed Nat.eqb] in H.
  rewrite group_text in H by (pose proof (span_le (NotIn [ch "]"]) s2); lia).
  apply exec_lit in H as (s3 & E2 & H).
  apply exec_many in H as (n2 & Hn2 & H).
  rewrite exec_open in H. apply exec_many in H as (n3 & Hn3 & H).
  rewrite exec_close in H. unfold close_group, open_group, initial in H.
  cbn [lookup opened closed Nat.eqb] in H.
  rewrite group_text in H
    by (pose proof (span_le (NotIn [dq]) (skipn n2 s3)); lia).
  apply exec_lit in H as (s5 & E3 & H).
  apply exec_lit in H as (s6 & E4 & H).
  simpl in H. injection H as <- <-.
  exists (firstn n1 s2), (firstn n2 s3), (firstn n3 (skipn n2 s3)). split.
  - rewrite P at 1. f_equal. rewrite E1. f_equal.
    rewrite <- (firstn_skipn n1 s2) at 1. f_equal. rewrite E2. f_equal.
    rewrite <- (firstn_skipn n2 s3) at 1. f_equal.
    rewrite <- (firstn_skipn n3 (skipn n2 s3)) at 1. f_equal.
    rewrite E3. f_equal. exact E4.
  - reflexivity.
Qed.

(** Without the text [print], parenthesis, quote, no rule changes anything. *)
Lemma rewrite_without_print (s : str) :
  occurs print_open s = false -> rewrite s = s.
Proof.
  intros H.
  assert (H1 : re_sub pattern1 replacement1 s = s)
    by (apply re_sub_no_match; unfold pattern1; apply search_needs_text, H).
  assert (H2 : re_sub pattern2 replacement2 s = s)
    by (apply re_sub_no_match; unfold pattern2; apply search_needs_text, H).
  assert (H3 : re_sub pattern3 replacement3 s = s)
    by (apply re_sub_no_match; unfold pattern3; apply search_needs_text, H).
  unfold rewrite, apply_patterns, patterns. cbn [fold_left fst snd].
  rewrite H1, H2, H3. reflexivity.
Qed.

(** The order of the rules shows: with the second rule first, the bracketed
    example is logged in the general category and keeps its tag in the
    message. *)
Lemma order_matters :
  apply_patterns [ (pattern2, replacement2); (pattern1, replacement1);
                   (pattern3, replacement3) ] Examples.bracketed
  = logger_call (py "[Network] Request failed") (py "general").
Proof. vm_compute. reflexivity. Qed.

End RewriterFacts.

(* ================================================================== *)
(** ** Properties of the rewriter *)

(** C1, as the spec states it, fails: for [print("[Network] Request failed")]
    the rewriter does not produce the call with the category [network] in
    lower case. *)
Lemma bracketed_example_not_lowercased :
  rewrite Examples.bracketed <> logger_call (py "Request failed") (py "network").
Proof. apply str_eqb_neq. vm_compute. reflexivity. Qed.

(** C1, amended: for [print("[Network] Request failed")] the rewriter
    produces the call of the logger with message [Request failed], category
    [Network], the tag as it is written, and level [info]; and wherever the
    bracketed-tag pattern matches, what the substitution puts there is the
    call of the logger with the matched message and the matched tag, letter
    for letter. *)
Theorem bracket_rule_keeps_tag :
  rewrite Examples.bracketed = logger_call (py "Request failed") (py "Network")
  /\ forall s rest g,
       match_at pattern1 s = Some (rest, g) ->
       exists tag ws message,
         s = print_open ++ ch "[" :: tag ++ ch "]" :: ws ++ message
               ++ dq :: ch ")" :: rest
         /\ expand replacement1 g = logger_call message tag
         /\ re_sub pattern1 replacement1 s
            = logger_call message tag ++ re_sub pattern1 replacement1 rest.
Proof.
  split.
  - vm_compute. reflexivity.
  - exact bracket_match.
Qed.

Lemma bracket_rule_keeps_tag_witness :
  exists tag ws message,
    Examples.bracketed
    = print_open ++ ch "[" :: tag ++ ch "]" :: ws ++ message ++ dq :: ch ")" :: []
    /\ expand replacement1 [(2, py "Request failed"); (1, py "Network")]
       = logger_call message tag
    /\ re_sub pattern1 replacement1 Examples.bracketed
       = logger_call message tag ++ re_sub pattern1 replacement1 [].
Proof.
  exact (proj2 bracket_rule_keeps_tag Examples.bracketed []
           [(2, py "Request failed"); (1, py "Network")] eq_refl).
Defined.


(** When the output no longer holds the text that every pattern starts with,
    running the rewriter on that output gives it back unchanged. *)
Lemma rewrite_twice_without_print (content : str) :
  occurs print_open (rewrite content) = false ->
  rewrite (rewrite content) = rewrite content.
Proof. apply rewrite_without_print. Qed.

(** The three examples of the spec are rewritten once and for all. *)
Lemma examples_rewritten_once :
  Forall (fun s => rewrite (rewrite s) = rewrite s)
    [Examples.bracketed; Examples.plain; Examples.with_argument].
Proof.
  repeat constructor; apply rewrite_twice_without_print; vm_compute; reflexivity.
Qed.

(** C5: for [print("Hello world")] the rewriter produces the call of the
    logger with message [Hello world], category [general] and level [info]. *)
Theorem plain_example :
  rewrite Examples.plain = logger_call (py "Hello world") (py "general").
Proof. vm_compute. reflexivity. Qed.

(** C6: for [print("Value is", x)] the rewriter produces the call of the
    logger whose message is [Value is: x], the message, a colon and a space,
    and the text of the argument, with category [general] and level [info]. *)
Theorem argument_example :
  rewrite Examples.with_argument
  = logger_call (py "Value is" ++ py ": " ++ py "x") (py "general").
Proof. vm_compute. reflexivity. Qed.

(** C7: the rewriter is the three substitutions one after the other, the
    bracketed-tag rule, then the plain-message rule, then the rule for a
    message and an argument, each one a single [re.sub] over the whole text
    that the rule before it produced. *)
Theorem rewrite_is_composition (content : str) :
  rewrite content
  = re_sub pattern3 replacement3
      (re_sub pattern2 replacement2
         (re_sub pattern1 replacement1 content)).
Proof. reflexivity. Qed.

(* ================================================================== *)
(** ** Facts about trees and paths *)

Section FsFacts.

(** Induction on trees: a directory has the property when its entries do. *)
Lemma node_induction (P : node -> Prop)
  (HF : forall d, P (File d))
  (HD : forall es, Forall (fun e => P (snd e)) es -> P (Dir es)) :
  forall n, P n.
Proof.
  fix IH 1. intros [d|es]; [apply HF|]. apply HD.
  induction es as [|[name c] es IHes]; constructor; [apply IH | exact IHes].
Qed.

Lemma shape_refl (n : node) : shape n n.
Proof.
  induction n as [d|es IH] using node_induction.
  - constructor. auto.
  - constructor. induction IH as [|e es He _ IHes]; constructor; auto.
Qed.

Lemma child_set_child (c : str) (new : node) (es : list (str * node)) :
  child c (set_child c new es) = Some new.
Proof.
  induction es as [|[n m] es IH]; simpl.
  - rewrite str_eqb_refl. reflexivity.
  - destruct (str_eqb c n) eqn:E; simpl; rewrite E; [reflexivity | exact IH].
Qed.

Lemma child_shape (c : str) (es es' : list (str * node)) :
  Forall2 (fun e e' => fst e = fst e' /\ shape (snd e) (snd e')) es es' ->
  match child c es with
  | Some m => exists m', child c es' = Some m' /\ shape m m'
  | None => child c es' = None
  end.
Proof.
  induction 1 as [|[n m] [n' m'] es es' [Hn Hm] _ IH]; simpl; [reflexivity|].
  simpl in Hn, Hm. subst n'.
  destruct (str_eqb c n); [|exact IH]. exists m'. auto.
Qed.

Lemma set_child_shape (c : str) (m m' : node) (es : list (str * node)) :
  child c es = Some m -> shape m m' ->
  Forall2 (fun e e' => fst e = fst e' /\ shape (snd e) (snd e')) es (set_child c m' es).
Proof.
  intros H S. induction es as [|[n x] es IH]; simpl in *; [discriminate|].
  destruct (str_eqb c n).
  - injection H as ->. constructor; [simpl; auto|].
    clear. induction es; constructor; auto using shape_refl.
  - constructor; [simpl; auto using shape_refl | apply IH, H].
Qed.

Lemma lookup_names_app (n : node) (a b : list str) :
  lookup_names n (a ++ b) =
  match lookup_names n a with
  | Some m => lookup_names m b
  | None => None
  end.
Proof.
  revert n; induction a as [|c a IH]; intros n; simpl; [reflexivity|].
  destruct n as [d|es]; [reflexivity|].
  destruct (child c es); [apply IH | reflexivity].
Qed.

Lemma chain_lookup (root : node) stack up n :
  chain root stack up n -> lookup_names root (rev stack) = Some n.
Proof.
  induction 1 as [|stack up es c m _ IH Hc]; simpl; [reflexivity|].
  rewrite lookup_names_app, IH. simpl. rewrite Hc. reflexivity.
Qed.

(** Path resolution ends where the names of the normalized path lead. *)
Lemma lookup_path_names (root : node) (cs : list str) :
  forall stack up n m,
    chain root stack up n -> lookup_path up n cs = Some m ->
    lookup_names root (normalize stack cs) = Some m.
Proof.
  induction cs as [|c cs IH]; intros stack up n m C H; simpl in *.
  - injection H as <-. exact (chain_lookup _ _ _ _ C).
  - destruct n as [d|es]; [discriminate|].
    destruct (str_eqb c [] || str_eqb c (py ".")); [exact (IH _ _ _ _ C H)|].
    destruct (str_eqb c (py "..")).
    + inversion C; subst; simpl; eapply IH; eauto.
    + destruct (child c es) as [x|] eqn:Hc; [|discriminate].
      eapply IH; [|exact H]. constructor; assumption.
Qed.

Lemma resolve_names (root : node) (p : str) (m : node) :
  resolve root p = Some m ->
  lookup_names root (normalize [] (split p)) = Some m.
Proof.
  unfold resolve. destruct p; [discriminate|].
  apply lookup_path_names. constructor.
Qed.

(** Writing over a file that is there: the write succeeds, the file holds
    the new data, and the tree keeps its shape. *)
Lemma store_file (names : list str) (d d' : data) :
  forall n,
    lookup_names n names = Some (File d) ->
    exists n',
      store names (File d') n = Some n'
      /\ lookup_names n' names = Some (File d')
      /\ ((d' = Undecodable -> d = Undecodable) -> shape n n').
Proof.
  induction names as [|c cs IH]; intros n H; simpl in *.
  - injection H as ->. eexists. repeat split. intros. constructor. assumption.
  - destruct n as [x|es]; [discriminate|].
    destruct (child c es) as [m|] eqn:Hc; [|discriminate].
    destruct cs as [|c2 cs].
    + simpl in H. injection H as ->. eexists. split; [reflexivity|]. split.
      * simpl. rewrite child_set_child. reflexivity.
      * intros Hd. constructor. eapply set_child_shape; [exact Hc|].
        constructor. exact Hd.
    + destruct (IH m H) as (m' & Hs & Hl & Hsh). rewrite Hs.
      eexists. split; [reflexivity|]. split.
      * change (lookup_names (Dir (set_child c m' es)) (c :: c2 :: cs))
          with (match child c (set_child c m' es) with
                | Some x => lookup_names x (c2 :: cs)
                | None => None
                end).
        rewrite child_set_child. exact Hl.
      * intros Hd. constructor. eapply set_child_shape; [exact Hc | auto].
Qed.

(** Resolution goes the same way in a tree of the same shape. *)
Lemma lookup_path_shape (cs : list str) :
  forall up up' n n' m,
    Forall2 shape up up' -> shape n n' ->
    lookup_path up n cs = Some m ->
    exists m', lookup_path up' n' cs = Some m' /\ shape m m'.
Proof.
  induction cs as [|c cs IH]; intros up up' n n' m U S H; simpl in *.
  - injection H as <-. eauto.
  - destruct n as [d|es]; [discriminate|].
    inversion S as [|? es' F]; subst.
    destruct (str_eqb c [] || str_eqb c (py ".")); [eapply IH; eauto|].
    destruct (str_eqb c (py "..")).
    + inversion U; subst; eapply IH; eauto.
    + pose proof (child_shape c _ _ F) as Hc.
      destruct (child c es) as [x|]; [|discriminate].
      destruct Hc as (x' & -> & Sx). eapply IH; [| exact Sx | exact H].
      constructor; assumption.
Qed.

Lemma resolve_shape (root root' : node) (p : str) (m : node) :
  shape root root' -> resolve root p = Some m ->
  exists m', resolve root' p = Some m' /\ shape m m'.
Proof.
  unfold resolve. destruct p; [discriminate|].
  intros S. apply lookup_path_shape; [constructor | exact S].
Qed.

Lemma readable_shape (root root' : node) (p : str) :
  shape root root' -> readable root p = true -> readable root' p = true.
Proof.
  unfold readable. intros S H.
  destruct (resolve root p) as [[[text|]|]|] eqn:R; try discriminate.
  destruct (resolve_shape _ _ _ _ S R) as (m' & -> & Sm).
  inversion Sm as [d d' Hd|]; subst. destruct d'; [reflexivity|].
  discriminate (Hd eq_refl).
Qed.

(** The same for trees that are alike: a path names a file that decodes
    in both or in neither. *)
Lemma alike_refl (n : node) : alike n n.
Proof.
  induction n as [d|es IH] using node_induction.
  - constructor. reflexivity.
  - constructor. induction IH as [|e es He _ IHes]; constructor; auto.
Qed.

Lemma child_alike (c : str) (es es' : list (str * node)) :
  Forall2 (fun e e' => fst e = fst e' /\ alike (snd e) (snd e')) es es' ->
  match child c es with
  | Some m => exists m', child c es' = Some m' /\ alike m m'
  | None => child c es' = None
  end.
Proof.
  induction 1 as [|[n m] [n' m'] es es' [Hn Hm] _ IH]; simpl; [reflexivity|].
  simpl in Hn, Hm. subst n'.
  destruct (str_eqb c n); [|exact IH]. exists m'. auto.
Qed.

Lemma set_child_alike (c : str) (m m' : node) (es : list (str * node)) :
  child c es = Some m -> alike m m' ->
  Forall2 (fun e e' => fst e = fst e' /\ alike (snd e) (snd e')) es (set_child c m' es).
Proof.
  intros H S. induction es as [|[n x] es IH]; simpl in *; [discriminate|].
  destruct (str_eqb c n).
  - injection H as ->. constructor; [simpl; auto|].
    clear. induction es; constructor; auto using alike_refl.
  - constructor; [simpl; auto using alike_refl | apply IH, H].
Qed.

Lemma store_alike (names : list str) (d d' : data) :
  decodes d = decodes d' ->
  forall n n',
    lookup_names n names = Some (File d) ->
    store names (File d') n = Some n' ->
    alike n n'.
Proof.
  intros Hd. induction names as [|c cs IH]; intros n n' H S; simpl in *.
  - injection H as ->. injection S as <-. constructor. exact Hd.
  - destruct n as [x|es]; [discriminate|].
    destruct (child c es) as [m|] eqn:Hc; [|discriminate].
    destruct cs as [|c2 cs].
    + simpl in H. injection H as ->. injection S as <-. constructor.
      eapply set_child_alike; [exact Hc|]. constructor. exact Hd.
    + destruct (store (c2 :: cs) (File d') m) as [m'|] eqn:Sm; [|discriminate].
      injection S as <-. constructor.
      eapply set_child_alike; [exact Hc | exact (IH m m' H Sm)].
Qed.

Lemma lookup_path_alike (cs : list str) :
  forall up up' n n',
    Forall2 alike up up' -> alike n n' ->
    match lookup_path up n cs with
    | Some m => exists m', lookup_path up' n' cs = Some m' /\ alike m m'
    | None => lookup_path up' n' cs = None
    end.
Proof.
  induction cs as [|c cs IH]; intros up up' n n' U S; simpl.
  - eauto.
  - inversion S as [d d' Hd|es es' F]; subst; [reflexivity|].
    destruct (str_eqb c [] || str_eqb c (py ".")); [apply IH; assumption|].
    destruct (str_eqb c (py "..")).
    + inversion U; subst; apply IH; auto.
    + pose proof (child_alike c _ _ F) as Hc.
      destruct (child c es) as [x|].
      * destruct Hc as (x' & -> & Sx). apply IH; [constructor|]; assumption.
      * rewrite Hc. reflexivity.
Qed.

Lemma readable_alike (root root' : node) (p : str) :
  alike root root' -> readable root' p = readable root p.
Proof.
  intros S. unfold readable, resolve. destruct p as [|c p]; [reflexivity|].
  pose proof (lookup_path_alike (split (c :: p)) [] [] root root'
                (Forall2_nil _) S) as H.
  destruct (lookup_path [] root (split (c :: p))) as [m|].
  - destruct H as (m' & -> & Sm).
    inversion Sm as [d d' Hd|]; subst; [|reflexivity].
    destruct d, d'; try discriminate; reflexivity.
  - rewrite H. reflexivity.
Qed.

End FsFacts.

(* ================================================================== *)
(** ** What can be printed *)

Section EncodeFacts.

Lemma encodable_app (a b : str) : encodable (a ++ b) = encodable a && encodable b.
Proof. apply forallb_app. Qed.

(** The text of a literal of this file is made of characters below 256. *)
Lemma encodable_py (s : string) : encodable (py s) = true.
Proof.
  apply forallb_forall. intros c I. apply in_map_iff in I as (a & <- & _).
  pose proof (N_ascii_bounded a) as B. unfold is_surrogate.
  apply negb_true_iff, andb_false_iff. left. apply N.leb_gt. lia.
Qed.

Lemma encodable_found_line (n : nat) : encodable (found_line n) = true.
Proof.
  unfold found_line, str_of_nat. rewrite !encodable_app, !encodable_py. reflexivity.
Qed.

Lemma encodable_modified_line (n : nat) : encodable (modified_line n) = true.
Proof.
  unfold modified_line, str_of_nat.
  change (10%N :: ?a ++ ?b) with ([10%N] ++ a ++ b).
  rewrite !encodable_app, !encodable_py. reflexivity.
Qed.

Lemma encodable_modified_file_line (p : str) :
  encodable (modified_file_line p) = encodable p.
Proof.
  unfold modified_file_line. rewrite encodable_app, encodable_py. reflexivity.
Qed.

Lemma encodable_missing_line (d : str) : encodable (missing_line d) = encodable d.
Proof.
  unfold missing_line. rewrite !encodable_app, !encodable_py.
  apply andb_true_r.
Qed.

Lemma print_encodable (line : str) (w : world) :
  encodable line = true ->
  print line w = (Return tt, World (disk w) (stdout w ++ [line]) (trace w)).
Proof. unfold print. intros ->. reflexivity. Qed.

Lemma print_unencodable (line : str) (w : world) :
  encodable line = false -> print line w = (Raise UnicodeEncodeError, w).
Proof. unfold print. intros ->. reflexivity. Qed.

End EncodeFacts.

(* ================================================================== *)
(** ** Facts about the script *)

Section ScriptFacts.

Lemma changed_true (c : str) : changed c = true <-> rewrite c <> c.
Proof.
  unfold changed. rewrite negb_true_iff. apply str_eqb_neq.
Qed.

Lemma changed_false (c : str) : changed c = false <-> rewrite c = c.
Proof.
  unfold changed. rewrite negb_false_iff. apply str_eqb_eq.
Qed.

(** A text that no pattern matches is not changed. *)
Lemma no_match_unchanged (c : str) :
  re_search pattern1 c = false -> re_search pattern2 c = false ->
  re_search pattern3 c = false -> rewrite c = c.
Proof.
  intros H1 H2 H3. unfold rewrite, apply_patterns, patterns. cbn [fold_left fst snd].
  rewrite (re_sub_no_match _ _ _ H1), (re_sub_no_match _ _ _ H2).
  apply re_sub_no_match, H3.
Qed.

Lemma read_file_text (path : str) (w : world) (text : str) :
  resolve (disk w) path = Some (File (Utf8 text)) ->
  read_file path w
  = (Return (universal_newlines text),
     World (disk w) (stdout w) (trace w ++ [Read path])).
Proof. unfold read_file. intros ->. reflexivity. Qed.

(** Writing to a file that is there succeeds. *)
Lemma write_file_there (path content : str) (w : world) (d : data) :
  resolve (disk w) path = Some (File d) ->
  exists root',
    write_file path content w
    = (Return tt, World root' (stdout w) (trace w ++ [Write path content]))
    /\ lookup_names root' (normalize [] (split path)) = Some (File (Utf8 content))
    /\ shape (disk w) root'.
Proof.
  intros R. unfold write_file. rewrite R.
  destruct (store_file _ _ (Utf8 content) _ (resolve_names _ _ _ R))
    as (root' & -> & L & S).
  exists root'. repeat split; [exact L | apply S; discriminate].
Qed.

(** What [replace_print_statements] does with a file that decodes. *)
Lemma replace_print_statements_text (path : str) (w : world) (text : str) :
  resolve (disk w) path = Some (File (Utf8 text)) ->
  let original := universal_newlines text in
  exists w',
    replace_print_statements path w = (Return (changed original), w')
    /\ stdout w' = stdout w
    /\ shape (disk w) (disk w')
    /\ (changed original = true ->
        trace w' = trace w ++ [Read path; Write path (rewrite original)]
        /\ lookup_names (disk w') (normalize [] (split path))
           = Some (File (Utf8 (rewrite original))))
    /\ (changed original = false ->
        trace w' = trace w ++ [Read path] /\ disk w' = disk w).
Proof.
  intros R original. unfold replace_print_statements, bind.
  rewrite (read_file_text _ _ _ R). fold original. fold (rewrite original).
  fold (changed original). destruct (changed original) eqn:C.
  - set (w1 := World (disk w) (stdout w) (trace w ++ [Read path])).
    destruct (write_file_there path (rewrite original) w1 _ R)
      as (root' & -> & L & S).
    eexists. split; [reflexivity|]. simpl. repeat split; try assumption.
    + rewrite <- app_assoc. reflexivity.
    + discriminate.
    + discriminate.
  - eexists. split; [reflexivity|]. simpl.
    repeat split; try discriminate; auto using shape_refl.
Qed.

(** The loop over the files, when each of them decodes. *)
Lemma process_readable (files : list str) :
  forall acc w,
    forallb (fun p => readable (disk w) p && encodable p) files = true ->
    exists modified w',
      process files acc w = (Return (acc ++ modified), w')
      /\ incl modified files
      /\ stdout w' = stdout w ++ map modified_file_line modified.
Proof.
  induction files as [|p files IH]; intros acc w H; simpl in *.
  - exists [], w. rewrite !app_nil_r. repeat split. apply incl_refl.
  - apply andb_true_iff in H as [Hp Hfiles].
    apply andb_true_iff in Hp as [Hp He]. unfold readable in Hp.
    destruct (resolve (disk w) p) as [[[text|]|]|] eqn:R; try discriminate.
    destruct (replace_print_statements_text _ _ _ R) as (w1 & E & Hout & S & _).
    unfold bind at 1. rewrite E.
    assert (Hfiles1 : forallb (fun q => readable (disk w1) q && encodable q) files
                      = true).
    { rewrite forallb_forall in *. intros q Hq.
      specialize (Hfiles q Hq). apply andb_true_iff in Hfiles as [Hr Hq'].
      rewrite (readable_shape _ _ _ S Hr), Hq'. reflexivity. }
    destruct (changed (universal_newlines text)).
    + unfold bind at 1.
      rewrite print_encodable by (rewrite encodable_modified_file_line; exact He).
      destruct (IH (acc ++ [p])
                  (World (disk w1) (stdout w1 ++ [modified_file_line p]) (trace w1))
                  Hfiles1) as (modified & w' & -> & I & O).
      exists (p :: modified), w'. simpl in O. rewrite <- app_assoc. simpl.
      split; [reflexivity|]. split.
      * intros q [<-|Hq]; [left; reflexivity | right; apply I, Hq].
      * rewrite O, Hout, <- app_assoc. reflexivity.
    + destruct (IH acc w1 Hfiles1) as (modified & w' & -> & I & O).
      exists modified, w'. split; [reflexivity|]. split.
      * intros q Hq. right. apply I, Hq.
      * rewrite O, Hout. reflexivity.
Qed.

(** A call on a file that decodes leaves a tree that is alike. *)
Lemma replace_print_statements_alike (path : str) (w : world) (text : str) :
  resolve (disk w) path = Some (File (Utf8 text)) ->
  alike (disk w) (disk (snd (replace_print_statements path w))).
Proof.
  intros R. unfold replace_print_statements, bind.
  rewrite (read_file_text _ _ _ R).
  destruct (negb (str_eqb _ _)); [|apply alike_refl].
  unfold write_file. simpl disk. rewrite R.
  destruct (store _ _ (disk w)) as [n'|] eqn:S; [|apply alike_refl].
  simpl. eapply (store_alike _ (Utf8 text));
    [| apply resolve_names, R | exact S]. reflexivity.
Qed.

Lemma unreadable_alike (root root' : node) (files : list str) :
  alike root root' ->
  existsb (fun q => negb (readable root' q)) files
  = existsb (fun q => negb (readable root q)) files.
Proof.
  intros A. induction files as [|q files IH]; simpl; [reflexivity|].
  rewrite (readable_alike _ _ q A), IH. reflexivity.
Qed.

(** The loop raises when one of the files does not decode or is not
    there. *)
Lemma process_unreadable (files : list str) :
  forall acc w,
    existsb (fun p => negb (readable (disk w) p)) files = true ->
    exists e w',
      process files acc w = (Raise e, w') /\ forall code, e <> SystemExit code.
Proof.
  induction files as [|p files IH]; intros acc w H; simpl in H; [discriminate|].
  simpl process. unfold bind at 1.
  destruct (readable (disk w) p) eqn:Hr.
  - simpl in H. unfold readable in Hr.
    destruct (resolve (disk w) p) as [[[text|]|]|] eqn:R; try discriminate.
    pose proof (replace_print_statements_alike _ _ _ R) as A.
    destruct (replace_print_statements_text _ _ _ R) as (w1 & E & _).
    rewrite E in *. simpl in A.
    assert (H1 : forall out tr,
               existsb (fun q => negb (readable (disk (World (disk w1) out tr)) q))
                 files = true).
    { intros out tr. simpl. rewrite <- H. apply unreadable_alike, A. }
    destruct (changed (universal_newlines text)).
    + unfold bind at 1, print.
      destruct (encodable (modified_file_line p)).
      * apply (IH _ _ (H1 _ _)).
      * exists UnicodeEncodeError, w1. split; [reflexivity | discriminate].
    + destruct w1 as [d1 o1 t1]. apply (IH _ _ (H1 o1 t1)).
  - unfold readable in Hr. unfold replace_print_statements, bind, read_file.
    destruct (resolve (disk w) p) as [[[text|]|es]|]; try discriminate;
      eexists; eexists; (split; [reflexivity | discriminate]).
Qed.

End ScriptFacts.

(* ================================================================== *)
(** ** The run driver *)

Section MainFacts.

Lemma main_usage (argv : list str) (w : world) :
  length argv <> 2 ->
  main argv w
  = (Raise (SystemExit 1), World (disk w) (stdout w ++ [usage_line]) (trace w)).
Proof.
  intros H. unfold main, bind.
  destruct (length argv =? 2) eqn:E; [apply Nat.eqb_eq in E; contradiction|].
  reflexivity.
Qed.

(** Without the directory, [main] prints the error line and exits with 1;
    when the name of the directory cannot be printed, that raises. *)
Lemma main_missing_cases (argv : list str) (w : world) :
  length argv = 2 -> resolve (disk w) (nth 1 argv []) = None ->
  main argv w
  = if encodable (nth 1 argv [])
    then (Raise (SystemExit 1),
          World (disk w) (stdout w ++ [missing_line (nth 1 argv [])]) (trace w))
    else (Raise UnicodeEncodeError, w).
Proof.
  intros H R. unfold main, bind, os_path_exists.
  rewrite H. simpl. rewrite R. simpl. unfold print.
  rewrite encodable_missing_line.
  destruct (encodable (nth 1 argv [])); reflexivity.
Qed.

Lemma main_missing (argv : list str) (w : world) :
  length argv = 2 -> resolve (disk w) (nth 1 argv []) = None ->
  encodable (nth 1 argv []) = true ->
  main argv w
  = (Raise (SystemExit 1),
     World (disk w) (stdout w ++ [missing_line (nth 1 argv [])]) (trace w)).
Proof.
  intros H R E. rewrite (main_missing_cases argv w H R), E. reflexivity.
Qed.

(** After the two checks, [main] is the scan, the loop and the report. *)
Lemma main_scan (argv : list str) (w : world) (n : node) :
  length argv = 2 -> resolve (disk w) (nth 1 argv []) = Some n ->
  main argv w
  = let found := swift_files_of (disk w) (nth 1 argv []) in
    match process found []
            (World (disk w) (stdout w ++ [found_line (length found)]) (trace w))
    with
    | (Return modified, w') =>
        (Return tt,
         World (disk w')
           ((stdout w' ++ [modified_line (length modified)]) ++ [note_line])
           (trace w'))
    | (Raise e, w') => (Raise e, w')
    end.
Proof.
  intros H R. unfold main, bind, os_path_exists, find_swift_files.
  rewrite H. simpl. rewrite R. simpl.
  rewrite print_encodable by apply encodable_found_line. simpl.
  destruct (process _ _ _) as [[modified|e] w']; [|reflexivity].
  rewrite print_encodable by apply encodable_modified_line.
  rewrite print_encodable by reflexivity. reflexivity.
Qed.

End MainFacts.

(* ================================================================== *)
(** ** Properties of the script *)

(** C3: a file that [replace_print_statements] reads is written back exactly
    when the rewritten text differs from the text read, and the function
    returns true exactly then; the file then holds the rewritten text.  When
    the texts are equal, and so when no pattern matches the text, nothing is
    written, the tree of files is the same as before and the function
    returns false. *)
Theorem write_iff_changed (file_path : str) (w : world) (text : str) :
  resolve (disk w) file_path = Some (File (Utf8 text)) ->
  exists w',
    replace_print_statements file_path w
    = (Return (changed (universal_newlines text)), w')
    /\ (rewrite (universal_newlines text) <> universal_newlines text ->
        changed (universal_newlines text) = true
        /\ trace w'
           = trace w ++ [Read file_path;
                         Write file_path (rewrite (universal_newlines text))]
        /\ lookup_names (disk w') (normalize [] (split file_path))
           = Some (File (Utf8 (rewrite (universal_newlines text)))))
    /\ (rewrite (universal_newlines text) = universal_newlines text ->
        changed (universal_newlines text) = false
        /\ trace w' = trace w ++ [Read file_path]
        /\ disk w' = disk w)
    /\ (re_search pattern1 (universal_newlines text) = false ->
        re_search pattern2 (universal_newlines text) = false ->
        re_search pattern3 (universal_newlines text) = false ->
        changed (universal_newlines text) = false
        /\ trace w' = trace w ++ [Read file_path]
        /\ disk w' = disk w).
Proof.
  intros R.
  destruct (replace_print_statements_text _ _ _ R) as (w' & E & _ & _ & Ht & Hf).
  exists w'. split; [exact E|].
  assert (Same : rewrite (universal_newlines text) = universal_newlines text ->
                 changed (universal_newlines text) = false
                 /\ trace w' = trace w ++ [Read file_path] /\ disk w' = disk w).
  { intros H. apply changed_false in H. split; [exact H | apply Hf, H]. }
  split; [|split; [exact Same|]].
  - intros H. apply changed_true in H. split; [exact H | apply Ht, H].
  - intros H1 H2 H3. apply Same, no_match_unchanged; assumption.
Qed.

Lemma write_iff_changed_witness :
  exists w',
    replace_print_statements (py "src/a.swift")
      (World (Examples.project (Utf8 Examples.plain)) [] [])
    = (Return true, w')
    /\ trace w' = [Read (py "src/a.swift");
                   Write (py "src/a.swift")
                     (logger_call (py "Hello world") (py "general"))].
Proof.
  destruct (write_iff_changed (py "src/a.swift")
              (World (Examples.project (Utf8 Examples.plain)) [] [])
              Examples.plain eq_refl) as (w' & E & Ht & _).
  exists w'. split; [exact E|].
  apply Ht. apply str_eqb_neq. vm_compute. reflexivity.
Defined.

(** C9: when the number of arguments is wrong or the directory is not
    there, the run ends with a status that is not 0, the tree of files is
    what it was and no file was read or written. *)
Theorem validation_failure_touches_nothing (argv : list str) (w : world) :
  length argv <> 2 \/ resolve (disk w) (nth 1 argv []) = None ->
  exit_status (fst (main argv w)) <> 0%Z
  /\ disk (snd (main argv w)) = disk w
  /\ trace (snd (main argv w)) = trace w.
Proof.
  destruct (Nat.eq_dec (length argv) 2) as [L|L]; intros H.
  - destruct H as [H|H]; [contradiction|].
    rewrite (main_missing_cases _ _ L H).
    destruct (encodable (nth 1 argv [])); simpl; repeat split; discriminate.
  - rewrite (main_usage _ _ L). simpl. repeat split. discriminate.
Qed.

Lemma validation_failure_touches_nothing_witness :
  exit_status
    (fst (main [Examples.script; py "lib"]
            (World (Examples.project (Utf8 Examples.plain)) [] []))) <> 0%Z
  /\ disk (snd (main [Examples.script; py "lib"]
                  (World (Examples.project (Utf8 Examples.plain)) [] [])))
     = Examples.project (Utf8 Examples.plain)
  /\ trace (snd (main [Examples.script; py "lib"]
                   (World (Examples.project (Utf8 Examples.plain)) [] [])))
     = [].
Proof.
  apply (validation_failure_touches_nothing [Examples.script; py "lib"]
           (World (Examples.project (Utf8 Examples.plain)) [] [])).
  right. reflexivity.
Defined.

(** C10: when the argument names a regular file, the check passes, no file
    is found, and the run reports none found and none modified and ends
    with status 0. *)
Theorem file_argument_accepted (prog path : str) (d : data) (root : node) :
  resolve root path = Some (File d) ->
  swift_files_of root path = []
  /\ run [prog; path] root
     = (0%Z, World root [found_line 0; modified_line 0; note_line] []).
Proof.
  intros R.
  assert (F : swift_files_of root path = []).
  { unfold swift_files_of, os_walk. rewrite R. reflexivity. }
  split; [exact F|].
  unfold run. rewrite (main_scan [prog; path] (World root [] []) (File d) eq_refl R).
  simpl. rewrite F. reflexivity.
Qed.

Lemma file_argument_accepted_witness :
  swift_files_of (Examples.project (Utf8 Examples.plain)) (py "src/a.swift") = []
  /\ run [Examples.script; py "src/a.swift"] (Examples.project (Utf8 Examples.plain))
     = (0%Z,
        World (Examples.project (Utf8 Examples.plain))
          [py "Found 0 Swift files"; 10%N :: py "Modified 0 files"; note_line] []).
Proof.
  exact (file_argument_accepted Examples.script (py "src/a.swift")
           (Utf8 Examples.plain) (Examples.project (Utf8 Examples.plain)) eq_refl).
Defined.

(** C8, as the spec states it, fails: with one argument that names a
    directory that is there, a Swift file that does not decode ends the run
    with status 1, after the count of the files found. *)
Lemma undecodable_file_ends_run :
  length [Examples.script; py "src"] = 2
  /\ resolve (Examples.project Undecodable) (py "src") <> None
  /\ run [Examples.script; py "src"] (Examples.project Undecodable)
     = (1%Z,
        World (Examples.project Undecodable) [py "Found 1 Swift files"]
          [Read (py "src/a.swift")]).
Proof.
  split; [reflexivity|]. split; [discriminate|]. vm_compute. reflexivity.
Qed.

(** C8, amended: the run ends with status 1 after the usage line when the
    number of arguments is wrong.  When the directory is not there it ends
    with status 1, after the error line when the name of the directory can be
    printed.  Otherwise, when every file found is there, decodes and has a
    path that can be printed, it ends with status 0, after the count of the
    files found, a line for each file modified, the count of the files
    modified and the note; when no file is found it reports none found and
    none modified and ends with status 0.  And when one of the files found is
    not there or does not decode, it ends with status 1. *)
Theorem run_exit_status (argv : list str) (root : node) :
  (length argv <> 2 -> run argv root = (1%Z, World root [usage_line] []))
  /\ (length argv = 2 -> resolve root (nth 1 argv []) = None ->
      run argv root
      = (1%Z,
         World root
           (if encodable (nth 1 argv []) then [missing_line (nth 1 argv [])] else [])
           []))
  /\ (length argv = 2 -> resolve root (nth 1 argv []) <> None ->
      forallb (fun p => readable root p && encodable p)
        (swift_files_of root (nth 1 argv [])) = true ->
      exists modified,
        incl modified (swift_files_of root (nth 1 argv []))
        /\ fst (run argv root) = 0%Z
        /\ stdout (snd (run argv root))
           = found_line (length (swift_files_of root (nth 1 argv [])))
               :: map modified_file_line modified
               ++ [modified_line (length modified); note_line])
  /\ (length argv = 2 -> resolve root (nth 1 argv []) <> None ->
      swift_files_of root (nth 1 argv []) = [] ->
      run argv root
      = (0%Z, World root [found_line 0; modified_line 0; note_line] []))
  /\ (length argv = 2 -> resolve root (nth 1 argv []) <> None ->
      existsb (fun p => negb (readable root p))
        (swift_files_of root (nth 1 argv [])) = true ->
      fst (run argv root) = 1%Z).
Proof.
  unfold run. repeat split.
  - intros L. rewrite (main_usage argv (World root [] []) L). reflexivity.
  - intros L R. rewrite (main_missing_cases argv (World root [] []) L R).
    destruct (encodable (nth 1 argv [])); reflexivity.
  - intros L R H. destruct (resolve root (nth 1 argv [])) as [n|] eqn:E;
      [clear R | contradiction].
    rewrite (main_scan argv (World root [] []) n L E). simpl.
    destruct (process_readable _ []
                (World root [found_line (length (swift_files_of root (nth 1 argv [])))] [])
                H) as (modified & w' & -> & I & O).
    exists modified. simpl in *. repeat split; [exact I|].
    rewrite O, <- !app_assoc. reflexivity.
  - intros L R F. destruct (resolve root (nth 1 argv [])) as [n|] eqn:E;
      [clear R | contradiction].
    rewrite (main_scan argv (World root [] []) n L E). simpl.
    rewrite F. reflexivity.
  - intros L R H. destruct (resolve root (nth 1 argv [])) as [n|] eqn:E;
      [clear R | contradiction].
    rewrite (main_scan argv (World root [] []) n L E). simpl.
    destruct (process_unreadable _ []
                (World root [found_line (length (swift_files_of root (nth 1 argv [])))] [])
                H) as (e & w' & -> & He).
    simpl. destruct e; [destruct (He code eq_refl) | reflexivity..].
Qed.

Lemma run_exit_status_witness :
  exists modified,
    incl modified (swift_files_of (Examples.project (Utf8 Examples.plain)) (py "src"))
    /\ fst (run [Examples.script; py "src"] (Examples.project (Utf8 Examples.plain)))
       = 0%Z
    /\ stdout (snd (run [Examples.script; py "src"]
                      (Examples.project (Utf8 Examples.plain))))
       = found_line 1 :: map modified_file_line modified
           ++ [modified_line (length modified); note_line].
Proof.
  apply (proj1 (proj2 (proj2 (run_exit_status [Examples.script; py "src"]
                                (Examples.project (Utf8 Examples.plain)))))).
  - reflexivity.
  - discriminate.
  - vm_compute. reflexivity.
Defined.

(* ================================================================== *)
(** ** The scanner *)

Section ScannerFacts.

Lemma reaches_dir (c : node) (names : list str) (es : list (str * node)) :
  reaches c names (Dir es) -> is_dir c = true.
Proof. intros H. inversion H; reflexivity. Qed.

Lemma reaches_app (n m k : node) (a b : list str) :
  reaches n a m -> reaches m b k -> reaches n (a ++ b) k.
Proof.
  induction 1 as [|es name c names m I _ IH]; intros H; simpl; [exact H|].
  econstructor; [exact I | apply IH, H].
Qed.

Lemma reaches_app_inv (a b : list str) :
  forall n k, reaches n (a ++ b) k -> exists m, reaches n a m /\ reaches m b k.
Proof.
  induction a as [|c a IH]; intros n k H; simpl in *.
  - exists n. split; [constructor | exact H].
  - inversion H as [|es name x names m I Hx]; subst.
    destruct (IH _ _ Hx) as (y & Hy & Hk).
    exists y. split; [econstructor; eassumption | exact Hk].
Qed.

Lemma in_filenames (file : str) (es : list (str * node)) :
  In file (filenames es) <-> exists d, In (file, File d) es.
Proof.
  unfold filenames. rewrite in_map_iff. split.
  - intros ([name c] & <- & H). apply filter_In in H as [H F].
    destruct c as [d|]; [|discriminate]. exists d. exact H.
  - intros (d & H). exists (file, File d). split; [reflexivity|].
    apply filter_In. split; [exact H | reflexivity].
Qed.

(** What [os.walk] yields: a triple for each directory below the top. *)
Lemma in_walk (n : node) :
  forall top r ds fs,
    In (r, ds, fs) (walk top n) <->
    exists names es,
      reaches n names (Dir es) /\ r = path_below top names
      /\ ds = dirnames es /\ fs = filenames es.
Proof.
  induction n as [d|es IH] using node_induction; intros top r ds fs; simpl.
  - split; [contradiction|]. intros (names & es & H & _). inversion H.
  - rewrite in_flat_map. split.
    + intros [E|([name c] & I & H)].
      * injection E as <- <- <-. exists [], es. repeat split. constructor.
      * destruct (is_dir c) eqn:D; [|contradiction].
        rewrite Forall_forall in IH. apply (IH _ I) in H.
        destruct H as (names & es' & Hr & -> & -> & ->).
        exists (name :: names), es'. repeat split.
        econstructor; eassumption.
    + intros (names & es' & Hr & -> & -> & ->).
      inversion Hr as [|? name c names' m I Hc]; subst; [left; reflexivity|].
      right. exists (name, c). split; [exact I|].
      rewrite (reaches_dir _ _ _ Hc).
      rewrite Forall_forall in IH. apply (IH _ I).
      exists names', es'. repeat split. exact Hc.
Qed.

Lemma in_scan_files (root : str) (files : list str) :
  forall acc p,
    In p (scan_files root files acc) <->
    In p acc \/ exists file,
      In file files /\ endswith file dot_swift = true /\ p = os_path_join root file.
Proof.
  induction files as [|f files IH]; intros acc p; simpl.
  - split; [auto | intros [H|(file & [] & _)]; exact H].
  - rewrite IH. split.
    + intros [H|(file & I & E & ->)].
      * destruct (endswith f dot_swift) eqn:E; [|auto].
        apply in_app_or in H as [H|[<-|[]]]; [auto|].
        right. exists f. auto.
      * right. exists file. auto.
    + intros [H|(file & [<-|I] & E & ->)].
      * left. destruct (endswith f dot_swift); [apply in_or_app|]; auto.
      * left. rewrite E. apply in_or_app. right. left. reflexivity.
      * right. exists file. auto.
Qed.

Lemma in_scan_walk (triples : list (str * list str * list str)) :
  forall acc p,
    In p (scan_walk triples acc) <->
    In p acc \/ exists root dirs files file,
      In (root, dirs, files) triples /\ In file files
      /\ endswith file dot_swift = true /\ p = os_path_join root file.
Proof.
  induction triples as [|[[r ds] fs] triples IH]; intros acc p; simpl.
  - split; [auto | intros [H|(? & ? & ? & ? & [] & _)]; exact H].
  - rewrite IH, in_scan_files. split.
    + intros [[H|(file & I & E & ->)]|(r' & ds' & fs' & file & I & F & E & ->)].
      * auto.
      * right. exists r, ds, fs, file. auto.
      * right. exists r', ds', fs', file. auto.
    + intros [H|(r' & ds' & fs' & file & [T|I] & F & E & ->)].
      * auto.
      * injection T as <- <- <-. left. right. exists file. auto.
      * right. exists r', ds', fs', file. auto.
Qed.

Lemma path_below_app (top : str) (names : list str) (name : str) :
  path_below top (names ++ [name]) = os_path_join (path_below top names) name.
Proof. unfold path_below. rewrite fold_left_app. reflexivity. Qed.

End ScannerFacts.

(** On the deeper example the scanner finds the two Swift files below
    [App], and nothing else. *)
Lemma scanner_example :
  swift_files_of Examples.app (py "App")
  = [py "App/Main.swift"; py "App/Views/Deep/Cell.swift"].
Proof. vm_compute. reflexivity. Qed.

(** C4: [find_swift_files] changes nothing, and the paths it returns are
    the paths of the files at any depth below the directory whose name ends
    in [.swift]: each path it returns is the path of such a file, and the path
    of each such file is returned. *)
Theorem find_swift_files_exact (directory : str) (w : world) :
  find_swift_files directory w = (Return (swift_files_of (disk w) directory), w)
  /\ forall p,
       In p (swift_files_of (disk w) directory) <->
       exists n names name d,
         resolve (disk w) directory = Some n
         /\ reaches n (names ++ [name]) (File d)
         /\ endswith name dot_swift = true
         /\ p = path_below directory (names ++ [name]).
Proof.
  split; [reflexivity|]. intros p.
  unfold swift_files_of, os_walk. rewrite in_scan_walk.
  destruct (resolve (disk w) directory) as [n|].
  - split.
    + intros [[]|(r & ds & fs & file & T & F & E & ->)].
      apply in_walk in T as (names & es & Hr & -> & -> & ->).
      apply in_filenames in F as (d & F).
      exists n, names, file, d. repeat split.
      * eapply reaches_app; [exact Hr|]. econstructor; [exact F | constructor].
      * exact E.
      * symmetry. apply path_below_app.
    + intros (n' & names & name & d & [= <-] & Hr & E & ->).
      apply reaches_app_inv in Hr as (m & Hm & Hf).
      inversion Hf as [|es ? c ? ? I Hc]; subst. inversion Hc; subst.
      right. exists (path_below directory names), (dirnames es), (filenames es), name.
      repeat split.
      * apply in_walk. exists names, es. auto.
      * apply in_filenames. exists d. exact I.
      * exact E.
      * apply path_below_app.
  - split.
    + intros [[]|(r & ds & fs & file & [] & _)].
    + intros (n' & names & name & d & [=] & _).
Qed.

(* ================================================================== *)
(** ** Matching, from the text to the match *)

Section MatchFacts.

Lemma mem_false (c : char) (s : str) : mem c s = false <-> ~ In c s.
Proof.
  unfold mem. split.
  - intros H I. assert (E : existsb (N.eqb c) s = true).
    { apply existsb_exists. exists c. split; [exact I | apply N.eqb_refl]. }
    congruence.
  - intros H. destruct (existsb (N.eqb c) s) eqn:E; [|reflexivity].
    apply existsb_exists in E as (x & I & Ex). apply N.eqb_eq in Ex. subst x.
    contradiction.
Qed.

Lemma notin_class (x : char) (s : str) :
  mem x s = false -> Forall (fun c => in_cls (NotIn [x]) c = true) s.
Proof.
  intros H. apply mem_false in H. apply Forall_forall. intros c I. simpl.
  destruct (N.eqb c x) eqn:E; [|reflexivity].
  apply N.eqb_eq in E. subst c. contradiction.
Qed.

Lemma space_class (s : str) :
  forallb isspace s = true -> Forall (fun c => in_cls Space c = true) s.
Proof. intros H. apply Forall_forall. apply forallb_forall. exact H. Qed.

Lemma span_app (k : cls) (a b : str) :
  Forall (fun c => in_cls k c = true) a -> span k (a ++ b) = length a + span k b.
Proof.
  induction 1 as [|c a Hc _ IH]; simpl; [reflexivity|]. rewrite Hc, IH. reflexivity.
Qed.

Lemma skipn_app_length (a b : str) : skipn (length a) (a ++ b) = b.
Proof. induction a as [|c a IH]; simpl; [reflexivity | exact IH]. Qed.

Lemma firstn_app_length (a b : str) : firstn (length a) (a ++ b) = a.
Proof. induction a as [|c a IH]; simpl; [reflexivity | rewrite IH; reflexivity]. Qed.

(** The text of a group that took [a] out of [a ++ b]. *)
Lemma group_text_app (a b : str) :
  firstn (length (a ++ b) - length b) (a ++ b) = a.
Proof.
  rewrite length_app. replace (length a + length b - length b) with (length a) by lia.
  apply firstn_app_length.
Qed.

Lemma backtrack_first {A} (f : nat -> option A) (lo n : nat) (r : A) :
  lo <= n -> f n = Some r -> backtrack f lo n = Some r.
Proof.
  intros L F. destruct n as [|n]; simpl.
  - replace (0 <? lo) with false by (symmetry; apply Nat.ltb_ge; lia).
    rewrite F. reflexivity.
  - replace (S n <? lo) with false by (symmetry; apply Nat.ltb_ge; lia).
    rewrite F. reflexivity.
Qed.

Lemma backtrack_none {A} (f : nat -> option A) (lo n : nat) :
  (forall k, lo <= k <= n -> f k = None) -> backtrack f lo n = None.
Proof.
  induction n as [|n IH]; intros H; simpl.
  - destruct (0 <? lo) eqn:E; [reflexivity|]. apply Nat.ltb_ge in E.
    rewrite H by lia. reflexivity.
  - destruct (S n <? lo) eqn:E; [reflexivity|]. apply Nat.ltb_ge in E.
    rewrite H by lia. apply IH. intros k Hk. apply H. lia.
Qed.

(** A greedy repetition takes the whole run [a] when what follows the run
    matches the rest of the pattern. *)
Lemma exec_many_take (lo : nat) (k : cls) (p : regex) (a b : str)
  (st : mstate) (r : str * marks) :
  Forall (fun c => in_cls k c = true) a -> span k b = 0 -> lo <= length a ->
  exec p b st = Some r ->
  exec (Many lo k :: p) (a ++ b) st = Some r.
Proof.
  intros Ha Hb L H. simpl. rewrite (span_app _ _ _ Ha), Hb, Nat.add_0_r.
  apply backtrack_first; [exact L|]. rewrite skipn_app_length. exact H.
Qed.

(** After [k] characters of [a ++ b], with [k] inside [a], comes a character
    of [a]. *)
Lemma skipn_inside (a b : str) (k : nat) :
  k < length a -> exists c r, skipn k (a ++ b) = c :: r /\ In c a.
Proof.
  revert k; induction a as [|x a IH]; intros k H; simpl in *; [lia|].
  destruct k as [|k].
  - exists x, (a ++ b). auto.
  - destruct (IH k) as (c & r & E & I); [lia|]. exists c, r. auto.
Qed.

Lemma nonempty_length (s : str) : s <> [] -> 1 <= length s.
Proof. destruct s; [contradiction | simpl; lia]. Qed.

(** Where the second pattern matches: at [print("message")] with a message
    that is not empty and holds no double quote; the group is the message. *)
Lemma plain_match (message rest : str) :
  message <> [] -> mem dq message = false ->
  match_at pattern2 (print_open ++ message ++ dq :: ch ")" :: rest)
  = Some (rest, [(1, message)]).
Proof.
  intros Hne Hq. unfold match_at, pattern2.
  rewrite exec_lits, startswith_app, skipn_app_length, exec_open.
  apply exec_many_take; [apply notin_class, Hq | reflexivity
                        | apply nonempty_length, Hne |].
  rewrite exec_close. unfold close_group, open_group, initial.
  cbn [lookup opened closed Nat.eqb].
  rewrite (group_text_app message (dq :: ch ")" :: rest)). reflexivity.
Qed.

Lemma plain_match_inv (s rest : str) (g : marks) :
  match_at pattern2 s = Some (rest, g) ->
  exists message,
    s = print_open ++ message ++ dq :: ch ")" :: rest
    /\ message <> [] /\ mem dq message = false /\ g = [(1, message)].
Proof.
  unfold match_at, pattern2. rewrite exec_lits.
  destruct (startswith s print_open) eqn:P; [|discriminate].
  apply startswith_split in P. intros H.
  rewrite exec_open in H. apply exec_many in H as (n & Hn & H).
  rewrite exec_close in H. unfold close_group, open_group, initial in H.
  cbn [lookup opened closed Nat.eqb] in H.
  set (s1 := skipn (length print_open) s) in *.
  rewrite group_text in H by (pose proof (span_le (NotIn [dq]) s1); lia).
  apply exec_lit in H as (s2 & E2 & H).
  apply exec_lit in H as (s3 & E3 & H).
  simpl in H. injection H as <- <-.
  exists (firstn n s1). repeat split.
  - rewrite P at 1. f_equal. rewrite <- (firstn_skipn n s1) at 1. f_equal.
    rewrite E2. f_equal. exact E3.
  - intros E. apply (f_equal (@length char)) in E. simpl in E.
    rewrite length_firstn in E. pose proof (span_le (NotIn [dq]) s1). lia.
  - apply mem_false. intros I.
    pose proof (span_firstn (NotIn [dq]) s1 n (proj2 Hn)) as F.
    rewrite Forall_forall in F. specialize (F _ I). discriminate F.
Qed.

End MatchFacts.

(* ================================================================== *)
(** ** Where [print(] and a double quote can occur *)

Section OccursFacts.

Lemma startswith_prefix (s w e : str) :
  startswith s (w ++ e) = true -> startswith s w = true.
Proof.
  revert s; induction w as [|x w IH]; intros s H; simpl in *; [reflexivity|].
  destruct s as [|y s]; [discriminate|].
  apply andb_true_iff in H as [Hx H]. rewrite Hx. simpl. apply IH, H.
Qed.

(** A text [w] without the character [x] that starts in [s], before an [x],
    ends in [s]. *)
Lemma startswith_stop (x : char) (w s r : str) :
  ~ In x w -> startswith (s ++ x :: r) w = true -> startswith s w = true.
Proof.
  revert s; induction w as [|y w IH]; intros s N H; simpl in *; [reflexivity|].
  destruct s as [|c s]; simpl in H.
  - apply andb_true_iff in H as [Hx _]. apply N.eqb_eq in Hx. tauto.
  - apply andb_true_iff in H as [Hx H]. rewrite Hx. simpl. apply IH; tauto.
Qed.

(** No occurrence of [w ++ e] starts in a stretch [s] that holds no [w] and
    is followed by a character that [w] does not hold. *)
Lemma occurs_segment (x : char) (w e s r : str) :
  ~ In x w -> occurs w s = false ->
  occurs (w ++ e) (s ++ x :: r) = occurs (w ++ e) (x :: r).
Proof.
  intros N. induction s as [|c s IH]; intros H; [reflexivity|].
  change ((c :: s) ++ x :: r) with (c :: (s ++ x :: r)).
  change (occurs (w ++ e) (c :: (s ++ x :: r)))
    with (startswith ((c :: s) ++ x :: r) (w ++ e) || occurs (w ++ e) (s ++ x :: r)).
  rewrite (IH (occurs_tail _ _ _ H)).
  destruct (startswith ((c :: s) ++ x :: r) (w ++ e)) eqn:E; [|reflexivity].
  apply startswith_prefix, (startswith_stop x w (c :: s) r N) in E.
  rewrite (occurs_here _ _ H) in E. discriminate.
Qed.

Lemma occurs_skip (w0 : char) (w : str) (c : char) (s : str) :
  c <> w0 -> occurs (w0 :: w) (c :: s) = occurs (w0 :: w) s.
Proof.
  intros H. change (occurs (w0 :: w) (c :: s))
    with (N.eqb w0 c && startswith s w || occurs (w0 :: w) s).
  replace (N.eqb w0 c) with false; [reflexivity|].
  symmetry. apply N.eqb_neq. congruence.
Qed.

(** No occurrence starts in a stretch that does not hold its first
    character. *)
Lemma occurs_no_first (w0 : char) (w a s : str) :
  ~ In w0 a -> occurs (w0 :: w) (a ++ s) = occurs (w0 :: w) s.
Proof.
  induction a as [|c a IH]; intros H; [reflexivity|].
  change ((c :: a) ++ s) with (c :: (a ++ s)).
  rewrite occurs_skip by (simpl in H; tauto). apply IH. simpl in H. tauto.
Qed.

(** A pattern that starts with [w] finds nothing in a text where it does
    not match at the start and [w] does not occur later. *)
Lemma search_tail (w : str) (p : regex) (c : char) (s : str) :
  match_at (lits w ++ p) (c :: s) = None -> occurs w s = false ->
  re_search (lits w ++ p) (c :: s) = false.
Proof. intros H O. simpl. rewrite H. apply search_needs_text, O. Qed.

(** In a call of [print] with a message that holds neither a double quote
    nor [print(], the only [print(] with a double quote is at the start. *)
Lemma print_plain_once (message : str) :
  occurs print_paren message = false ->
  occurs print_open (tl (print_plain message)) = false.
Proof.
  intros H.
  change (tl (print_plain message))
    with (py "rint(" ++ dq :: message ++ dq :: [ch ")"]).
  change print_open with (print_paren ++ [dq]).
  rewrite occurs_segment; [| vm_compute; intuition discriminate | reflexivity].
  change (print_paren ++ [dq]) with (ch "p" :: py "rint(" ++ [dq]).
  rewrite occurs_skip by discriminate.
  change (ch "p" :: py "rint(" ++ [dq]) with (print_paren ++ [dq]).
  rewrite occurs_segment; [reflexivity | vm_compute; intuition discriminate | exact H].
Qed.

(** The call of the logger holds no [print(] with a double quote when its
    message and its category hold no [print(]. *)
Lemma logger_call_no_print (message category : str) :
  occurs print_paren message = false -> occurs print_paren category = false ->
  occurs print_open (logger_call message category) = false.
Proof.
  intros Hm Hc. unfold logger_call.
  change print_open with (print_paren ++ [dq]).
  rewrite occurs_segment; [| vm_compute; intuition discriminate | reflexivity].
  change (print_paren ++ [dq]) with (ch "p" :: py "rint(" ++ [dq]).
  rewrite occurs_skip by discriminate.
  change (ch "p" :: py "rint(" ++ [dq]) with (print_paren ++ [dq]).
  rewrite occurs_segment; [| vm_compute; intuition discriminate | exact Hm].
  change (print_paren ++ [dq]) with (ch "p" :: py "rint(" ++ [dq]).
  rewrite occurs_skip by discriminate.
  rewrite occurs_no_first by (vm_compute; intuition discriminate).
  change (py ", level: .info)") with (ch "," :: py " level: .info)").
  change (ch "p" :: py "rint(" ++ [dq]) with (print_paren ++ [dq]).
  rewrite occurs_segment; [reflexivity | vm_compute; intuition discriminate | exact Hc].
Qed.

End OccursFacts.

(* ================================================================== *)
(** ** The rules on calls of the documented shapes *)

Section RuleFacts.

Lemma re_sub_nothing (w : str) (p : regex) (t : template) (s : str) :
  occurs w s = false -> re_sub (lits w ++ p) t s = s.
Proof. intros H. apply re_sub_no_match, search_needs_text, H. Qed.

(** The first pattern does not match where no square bracket follows the
    double quote. *)
Lemma bracket_needs_bracket (s : str) :
  s <> [] -> startswith s [ch "["] = false ->
  match_at pattern1 (print_open ++ s) = None.
Proof.
  intros Hne H. unfold match_at, pattern1.
  rewrite exec_lits, startswith_app, skipn_app_length.
  destruct s as [|c s]; [contradiction|].
  cbn [startswith] in H. rewrite andb_true_r in H.
  change (exec (One (Lit (ch "[")) :: ?p) (c :: s) initial)
    with (if N.eqb c (ch "[") then exec p s initial else None).
  rewrite N.eqb_sym, H. reflexivity.
Qed.

Lemma length_print_plain (message : str) : 0 < length (print_plain message).
Proof. unfold print_plain. rewrite length_app. simpl. lia. Qed.

End RuleFacts.

(** X1: a call [print("message")] whose message is not empty, holds no
    double quote and no [print(] and does not start with a square bracket is
    rewritten to the call of the logger with that message, the category
    [general] and the level [info]. *)
Theorem plain_rule (message : str) :
  message <> [] -> mem dq message = false ->
  startswith message [ch "["] = false ->
  occurs print_paren message = false ->
  rewrite (print_plain message) = logger_call message (py "general").
Proof.
  intros Hne Hq Hb Hp.
  unfold rewrite, apply_patterns, patterns. cbn [fold_left fst snd].
  assert (R1 : re_sub pattern1 replacement1 (print_plain message) = print_plain message).
  { apply re_sub_no_match.
    change (print_plain message) with (ch "p" :: tl (print_plain message)).
    unfold pattern1. apply search_tail; [|apply print_plain_once, Hp].
    change (ch "p" :: tl (print_plain message))
      with (print_open ++ (message ++ [dq; ch ")"])).
    apply bracket_needs_bracket.
    - destruct message; [contradiction | discriminate].
    - destruct message; [contradiction | exact Hb]. }
  rewrite R1.
  assert (R2 : re_sub pattern2 replacement2 (print_plain message)
               = logger_call message (py "general")).
  { rewrite (re_sub_match pattern2 replacement2 (print_plain message) []
               [(1, message)]).
    - apply app_nil_r.
    - apply plain_match; assumption.
    - apply length_print_plain. }
  rewrite R2. unfold pattern3.
  apply re_sub_nothing, logger_call_no_print; [exact Hp | reflexivity].
Qed.

Lemma plain_rule_witness :
  rewrite (print_plain (py "Saved 3 items"))
  = logger_call (py "Saved 3 items") (py "general").
Proof.
  apply plain_rule; [discriminate | reflexivity | reflexivity | reflexivity].
Defined.

(** X4: the second pattern matches at the start of a text exactly when the
    text starts with [print("message")] for a message that is not empty and
    holds no double quote; the match ends after the closing parenthesis and
    its group is the message. *)
Theorem plain_match_iff (s rest : str) (g : marks) :
  match_at pattern2 s = Some (rest, g) <->
  exists message,
    s = print_open ++ message ++ dq :: ch ")" :: rest
    /\ message <> [] /\ mem dq message = false /\ g = [(1, message)].
Proof.
  split; [apply plain_match_inv|].
  intros (message & -> & Hne & Hq & ->). apply plain_match; assumption.
Qed.

Section RuleFacts2.

Lemma span_no_leading_space (s r : str) :
  s <> [] -> leading_space s = false -> span Space (s ++ r) = 0.
Proof.
  destruct s as [|c s]; [contradiction|]. intros _ H. simpl in *.
  rewrite H. reflexivity.
Qed.

Lemma space_not_p (ws : str) : forallb isspace ws = true -> ~ In (ch "p") ws.
Proof.
  intros H I. rewrite forallb_forall in H. specialize (H _ I). discriminate H.
Qed.

(** The first pattern on a call with a tag in brackets: the groups are the
    tag and the message. *)
Lemma bracket_match_at (tag ws message rest : str) :
  tag <> [] -> mem (ch "]") tag = false -> forallb isspace ws = true ->
  message <> [] -> mem dq message = false -> leading_space message = false ->
  match_at pattern1
    (print_open ++ ch "[" :: tag ++ ch "]" :: ws ++ message ++ dq :: ch ")" :: rest)
  = Some (rest, [(2, message); (1, tag)]).
Proof.
  intros Ht Hb Hw Hm Hq Hs. unfold match_at, pattern1.
  rewrite exec_lits, startswith_app, skipn_app_length.
  change (exec (One (Lit (ch "[")) :: ?p) (ch "[" :: ?s) initial)
    with (exec p s initial).
  rewrite exec_open.
  apply exec_many_take; [apply notin_class, Hb | reflexivity
                        | apply nonempty_length, Ht |].
  rewrite exec_close. unfold close_group, open_group, initial.
  cbn [lookup opened closed Nat.eqb]. rewrite group_text_app.
  change (exec (One (Lit (ch "]")) :: ?p) (ch "]" :: ?s) ?st) with (exec p s st).
  apply exec_many_take; [apply space_class, Hw
                        | apply span_no_leading_space; assumption | lia |].
  rewrite exec_open.
  apply exec_many_take; [apply notin_class, Hq | reflexivity
                        | apply nonempty_length, Hm |].
  rewrite exec_close. unfold close_group, open_group.
  cbn [lookup opened closed Nat.eqb]. rewrite group_text_app. reflexivity.
Qed.

(** The third pattern on a call with an argument: the groups are the
    message and the argument. *)
Lemma argument_match_at (message ws argument rest : str) :
  message <> [] -> mem dq message = false -> forallb isspace ws = true ->
  argument <> [] -> mem (ch ")") argument = false ->
  leading_space argument = false ->
  match_at pattern3
    (print_open ++ message ++ dq :: ch "," :: ws ++ argument ++ ch ")" :: rest)
  = Some (rest, [(2, argument); (1, message)]).
Proof.
  intros Hm Hq Hw Ha Hp Hs. unfold match_at, pattern3.
  rewrite exec_lits, startswith_app, skipn_app_length, exec_open.
  apply exec_many_take; [apply notin_class, Hq | reflexivity
                        | apply nonempty_length, Hm |].
  rewrite exec_close. unfold close_group, open_group, initial.
  cbn [lookup opened closed Nat.eqb]. rewrite group_text_app.
  change (exec (One (Lit dq) :: One (Lit (ch ",")) :: ?p) (dq :: ch "," :: ?s) ?st)
    with (exec p s st).
  apply exec_many_take; [apply space_class, Hw
                        | apply span_no_leading_space; assumption | lia |].
  rewrite exec_open.
  apply exec_many_take; [apply notin_class, Hp | reflexivity
                        | apply nonempty_length, Ha |].
  rewrite exec_close. unfold close_group, open_group.
  cbn [lookup opened closed Nat.eqb]. rewrite group_text_app. reflexivity.
Qed.

(** The second pattern does not match a call whose message is followed by
    a comma. *)
Lemma plain_no_match_comma (message r : str) :
  mem dq message = false ->
  match_at pattern2 (print_open ++ message ++ dq :: ch "," :: r) = None.
Proof.
  intros Hq. unfold match_at, pattern2.
  rewrite exec_lits, startswith_app, skipn_app_length, exec_open.
  cbn [exec]. apply backtrack_none. intros k Hk.
  rewrite (span_app _ _ _ (notin_class _ _ Hq)) in Hk.
  change (span (NotIn [dq]) (dq :: ch "," :: r)) with 0 in Hk.
  destruct (Nat.eq_dec k (length message)) as [->|Hne].
  - rewrite skipn_app_length. reflexivity.
  - destruct (skipn_inside message (dq :: ch "," :: r) k) as (c & t & -> & I);
      [lia|].
    replace (in_cls (Lit dq) c) with false; [reflexivity|].
    symmetry. apply N.eqb_neq. intros ->. apply mem_false in Hq. contradiction.
Qed.

(** In a call with an argument, the only [print(] with a double quote is at
    the start. *)
Lemma print_with_argument_once (message ws argument : str) :
  occurs print_paren message = false -> forallb isspace ws = true ->
  occurs print_paren argument = false ->
  occurs print_open (tl (print_with_argument message ws argument)) = false.
Proof.
  intros Hm Hw Ha.
  change (tl (print_with_argument message ws argument))
    with (py "rint(" ++ dq :: message ++ dq :: ch "," :: ws ++ argument ++ [ch ")"]).
  change print_open with (print_paren ++ [dq]).
  rewrite occurs_segment; [| vm_compute; intuition discriminate | reflexivity].
  change (print_paren ++ [dq]) with (ch "p" :: py "rint(" ++ [dq]).
  rewrite occurs_skip by discriminate.
  change (ch "p" :: py "rint(" ++ [dq]) with (print_paren ++ [dq]).
  rewrite occurs_segment; [| vm_compute; intuition discriminate | exact Hm].
  change (print_paren ++ [dq]) with (ch "p" :: py "rint(" ++ [dq]).
  rewrite !occurs_skip by discriminate.
  rewrite occurs_no_first by (apply space_not_p, Hw).
  change (ch "p" :: py "rint(" ++ [dq]) with (print_paren ++ [dq]).
  rewrite occurs_segment; [reflexivity | vm_compute; intuition discriminate | exact Ha].
Qed.

Lemma length_print_bracketed (tag ws message : str) :
  0 < length (print_bracketed tag ws message).
Proof. unfold print_bracketed. rewrite length_app. simpl. lia. Qed.

Lemma length_print_with_argument (message ws argument : str) :
  0 < length (print_with_argument message ws argument).
Proof. unfold print_with_argument. rewrite length_app. simpl. lia. Qed.

End RuleFacts2.

(** X2: a call [print("[tag] message")] is rewritten to the call of the
    logger with the message, the tag as its category and the level [info],
    when the tag is not empty and holds no closing bracket, white space
    separates it from a message that is not empty, holds no double quote and
    does not start with white space, and neither holds [print(]. *)
Theorem bracket_rule (tag ws message : str) :
  tag <> [] -> mem (ch "]") tag = false -> forallb isspace ws = true ->
  message <> [] -> mem dq message = false -> leading_space message = false ->
  occurs print_paren tag = false -> occurs print_paren message = false ->
  rewrite (print_bracketed tag ws message) = logger_call message tag.
Proof.
  intros Ht Hb Hw Hm Hq Hs Hpt Hpm.
  unfold rewrite, apply_patterns, patterns. cbn [fold_left fst snd].
  assert (R1 : re_sub pattern1 replacement1 (print_bracketed tag ws message)
               = logger_call message tag).
  { rewrite (re_sub_match pattern1 replacement1 (print_bracketed tag ws message) []
               [(2, message); (1, tag)]).
    - apply app_nil_r.
    - apply bracket_match_at; assumption.
    - apply length_print_bracketed. }
  rewrite R1.
  assert (O : occurs print_open (logger_call message tag) = false)
    by (apply logger_call_no_print; assumption).
  unfold pattern2 at 1. rewrite (re_sub_nothing _ _ _ _ O).
  unfold pattern3. apply re_sub_nothing, O.
Qed.

Lemma bracket_rule_witness :
  rewrite (print_bracketed (py "Audio") (py "  ") (py "Engine started"))
  = logger_call (py "Engine started") (py "Audio").
Proof.
  apply bracket_rule; solve [discriminate | reflexivity].
Defined.

(** X3: a call [print("message", argument)] is rewritten to the call of
    the logger whose message is the message, a colon, a space and the text of
    the argument, with the category [general], when the message is not empty,
    holds no double quote and does not start with a square bracket, white
    space follows the comma, the argument is not empty, holds no closing
    parenthesis and does not start with white space, and neither holds
    [print(]. *)
Theorem argument_rule (message ws argument : str) :
  message <> [] -> mem dq message = false ->
  startswith message [ch "["] = false -> occurs print_paren message = false ->
  forallb isspace ws = true ->
  argument <> [] -> mem (ch ")") argument = false ->
  leading_space argument = false -> occurs print_paren argument = false ->
  rewrite (print_with_argument message ws argument)
  = logger_call (message ++ py ": " ++ argument) (py "general").
Proof.
  intros Hm Hq Hb Hpm Hw Ha Hp Hs Hpa.
  unfold rewrite, apply_patterns, patterns. cbn [fold_left fst snd].
  pose proof (print_with_argument_once message ws argument Hpm Hw Hpa) as O.
  assert (R1 : re_sub pattern1 replacement1 (print_with_argument message ws argument)
               = print_with_argument message ws argument).
  { apply re_sub_no_match.
    change (print_with_argument message ws argument)
      with (ch "p" :: tl (print_with_argument message ws argument)).
    unfold pattern1. apply search_tail; [|exact O].
    change (ch "p" :: tl (print_with_argument message ws argument))
      with (print_open ++ (message ++ dq :: ch "," :: ws ++ argument ++ [ch ")"])).
    apply bracket_needs_bracket.
    - destruct message; [contradiction | discriminate].
    - destruct message; [contradiction | exact Hb]. }
  rewrite R1.
  assert (R2 : re_sub pattern2 replacement2 (print_with_argument message ws argument)
               = print_with_argument message ws argument).
  { apply re_sub_no_match.
    change (print_with_argument message ws argument)
      with (ch "p" :: tl (print_with_argument message ws argument)).
    unfold pattern2. apply search_tail; [|exact O].
    apply (plain_no_match_comma message (ws ++ argument ++ [ch ")"]) Hq). }
  rewrite R2.
  rewrite (re_sub_match pattern3 replacement3 (print_with_argument message ws argument)
             [] [(2, argument); (1, message)]).
  - change (re_sub pattern3 replacement3 []) with (@nil char). rewrite app_nil_r.
    unfold logger_call. rewrite <- !app_assoc. reflexivity.
  - apply argument_match_at; assumption.
  - apply length_print_with_argument.
Qed.

Lemma argument_rule_witness :
  rewrite (print_with_argument (py "Score") (py " ") (py "player.score"))
  = logger_call (py "Score" ++ py ": " ++ py "player.score") (py "general").
Proof.
  apply argument_rule; solve [discriminate | reflexivity].
Defined.

Section ShapeFacts.

Lemma span_firstn_notin (x : char) (s : str) (n : nat) :
  n <= span (NotIn [x]) s -> mem x (firstn n s) = false.
Proof.
  intros H. apply mem_false. intros I.
  pose proof (span_firstn (NotIn [x]) s n H) as F.
  rewrite Forall_forall in F. specialize (F _ I). simpl in F.
  rewrite N.eqb_refl in F. discriminate.
Qed.

Lemma span_firstn_space (s : str) (n : nat) :
  n <= span Space s -> forallb isspace (firstn n s) = true.
Proof.
  intros H. apply forallb_forall. intros c I.
  pose proof (span_firstn Space s n H) as F.
  rewrite Forall_forall in F. exact (F _ I).
Qed.

Lemma span_firstn_nonempty (k : cls) (s : str) (n : nat) :
  1 <= n <= span k s -> firstn n s <> [].
Proof.
  intros H E. apply (f_equal (@length char)) in E. simpl in E.
  rewrite length_firstn in E. pose proof (span_le k s). lia.
Qed.

End ShapeFacts.

(** X5: where the third pattern matches, the text reads [print("message",]
    then white space, an argument and a closing parenthesis; the message is
    not empty and holds no double quote, and the argument is not empty and
    holds no closing parenthesis: it ends at the first closing parenthesis
    after the comma.  The substitution puts there the call of the logger with
    the message, a colon, a space and the argument, and goes on behind that
    parenthesis. *)
Theorem argument_match_shape (s rest : str) (g : marks) :
  match_at pattern3 s = Some (rest, g) ->
  exists message ws argument,
    s = print_open ++ message ++ dq :: ch "," :: ws ++ argument ++ ch ")" :: rest
    /\ message <> [] /\ mem dq message = false
    /\ forallb isspace ws = true
    /\ argument <> [] /\ mem (ch ")") argument = false
    /\ re_sub pattern3 replacement3 s
       = logger_call (message ++ py ": " ++ argument) (py "general")
           ++ re_sub pattern3 replacement3 rest.
Proof.
  intros M. pose proof M as H.
  unfold match_at, pattern3 in H. rewrite exec_lits in H.
  destruct (startswith s print_open) eqn:P; [|discriminate].
  apply startswith_split in P.
  set (s1 := skipn (length print_open) s) in *.
  rewrite exec_open in H. apply exec_many in H as (n1 & Hn1 & H).
  rewrite exec_close in H. unfold close_group, open_group, initial in H.
  cbn [lookup opened closed Nat.eqb] in H.
  rewrite group_text in H by (pose proof (span_le (NotIn [dq]) s1); lia).
  apply exec_lit in H as (s2 & E2 & H).
  apply exec_lit in H as (s3 & E3 & H).
  apply exec_many in H as (n2 & Hn2 & H).
  rewrite exec_open in H. apply exec_many in H as (n3 & Hn3 & H).
  rewrite exec_close in H. unfold close_group, open_group in H.
  cbn [lookup opened closed Nat.eqb] in H.
  rewrite group_text in H
    by (pose proof (span_le (NotIn [ch ")"]) (skipn n2 s3)); lia).
  apply exec_lit in H as (s5 & E5 & H).
  simpl in H. injection H as <- <-.
  assert (Es : s = print_open ++ firstn n1 s1 ++ dq :: ch "," :: firstn n2 s3
                     ++ firstn n3 (skipn n2 s3) ++ ch ")" :: s5).
  { rewrite P at 1. f_equal. rewrite <- (firstn_skipn n1 s1) at 1. f_equal.
    rewrite E2. f_equal. rewrite E3. f_equal.
    rewrite <- (firstn_skipn n2 s3) at 1. f_equal.
    rewrite <- (firstn_skipn n3 (skipn n2 s3)) at 1. f_equal. exact E5. }
  exists (firstn n1 s1), (firstn n2 s3), (firstn n3 (skipn n2 s3)).
  split; [exact Es|].
  split; [apply (span_firstn_nonempty (NotIn [dq])), Hn1|].
  split; [apply span_firstn_notin, Hn1|].
  split; [apply span_firstn_space, Hn2|].
  split; [apply (span_firstn_nonempty (NotIn [ch ")"])), Hn3|].
  split; [apply span_firstn_notin, Hn3|].
  rewrite (re_sub_match pattern3 replacement3 s s5 _ M).
  - f_equal. unfold logger_call. rewrite <- !app_assoc. reflexivity.
  - apply (f_equal (@length char)) in Es.
    rewrite length_app in Es. simpl in Es. rewrite !length_app in Es.
    simpl in Es. rewrite !length_app in Es. simpl in Es. lia.
Qed.

Lemma argument_match_shape_witness :
  exists message ws argument,
    py "print(" ++ dq :: py "Area" ++ dq :: py ", f(x))"
    = print_open ++ message ++ dq :: ch "," :: ws ++ argument ++ ch ")" :: py ")"
    /\ message <> [] /\ mem dq message = false
    /\ forallb isspace ws = true
    /\ argument <> [] /\ mem (ch ")") argument = false
    /\ re_sub pattern3 replacement3 (py "print(" ++ dq :: py "Area" ++ dq :: py ", f(x))")
       = logger_call (message ++ py ": " ++ argument) (py "general")
           ++ re_sub pattern3 replacement3 (py ")").
Proof.
  exact (argument_match_shape (py "print(" ++ dq :: py "Area" ++ dq :: py ", f(x))")
           (py ")") [(2, py "f(x"); (1, py "Area")] eq_refl).
Defined.

(* ================================================================== *)
(** ** The characters of the rewritten text *)

Section CharFacts.

Variable P : char -> Prop.

Lemma Forall_firstn_chars (n : nat) (s : str) : Forall P s -> Forall P (firstn n s).
Proof.
  revert n; induction s as [|c s IH]; intros [|n] H; simpl; try constructor.
  - inversion H; assumption.
  - apply IH. inversion H; assumption.
Qed.

Lemma Forall_skipn_chars (n : nat) (s : str) : Forall P s -> Forall P (skipn n s).
Proof.
  revert n; induction s as [|c s IH]; intros [|n] H; simpl; try assumption.
  apply IH. inversion H; assumption.
Qed.

Lemma lookup_in (i : nat) (m : marks) (v : str) :
  lookup i m = Some v -> In (i, v) m.
Proof.
  induction m as [|[j x] m IH]; simpl; [discriminate|].
  destruct (Nat.eqb i j) eqn:E.
  - apply Nat.eqb_eq in E. intros [= ->]. left. congruence.
  - intros H. right. apply IH, H.
Qed.

(** What a match leaves and what its groups hold are pieces of the input. *)
Lemma exec_chars (p : regex) :
  forall s st rest g,
    Forall P s -> marks_in P (opened st) -> marks_in P (closed st) ->
    exec p s st = Some (rest, g) ->
    Forall P rest /\ marks_in P g.
Proof.
  induction p as [|t p IH]; intros s st rest g Hs Ho Hc H.
  - simpl in H. injection H as <- <-. auto.
  - destruct t as [k|lo k|i|i].
    + apply exec_one in H as (c & s' & -> & _ & H).
      apply (IH s' st); auto. inversion Hs; assumption.
    + apply exec_many in H as (n & _ & H).
      apply (IH (skipn n s) st); auto using Forall_skipn_chars.
    + rewrite exec_open in H. apply (IH s (open_group i s st)); auto.
      intros j v [[= <- <-]|I]; [exact Hs | exact (Ho _ _ I)].
    + rewrite exec_close in H. apply (IH s (close_group i s st)); auto.
      * unfold close_group. destruct (lookup i (opened st)); exact Ho.
      * unfold close_group. destruct (lookup i (opened st)) as [s0|] eqn:L;
          [|exact Hc].
        intros j v [[= <- <-]|I]; [|exact (Hc _ _ I)].
        apply Forall_firstn_chars. exact (Ho _ _ (lookup_in _ _ _ L)).
Qed.

Lemma expand_chars (t : template) (g : marks) :
  Forall P (template_chars t) -> marks_in P g -> Forall P (expand t g).
Proof.
  intros Ht Hg. induction t as [|[c|i] t IH]; simpl in *.
  - constructor.
  - inversion Ht; subst. constructor; auto.
  - apply Forall_app. split; [|auto].
    destruct (lookup i g) as [v|] eqn:L; [|constructor].
    exact (Hg _ _ (lookup_in _ _ _ L)).
Qed.

Lemma sub_loop_chars (p : regex) (t : template) (fuel : nat) :
  forall s, Forall P s -> Forall P (template_chars t) ->
            Forall P (sub_loop p t fuel s).
Proof.
  induction fuel as [|fuel IH]; intros s Hs Ht; simpl; [exact Hs|].
  assert (C : Forall P match s with
                       | [] => []
                       | c :: s' => c :: sub_loop p t fuel s'
                       end).
  { destruct s as [|c s']; [constructor|].
    inversion Hs; subst. constructor; auto. }
  destruct (match_at p s) as [[rest g]|] eqn:M; [|exact C].
  destruct (exec_chars p s initial rest g Hs) as [Hr Hg]; try exact M;
    try (intros ? ? []).
  apply Forall_app. split; [apply expand_chars; assumption|].
  destruct (length rest <? length s); [apply IH; assumption | exact C].
Qed.

Lemma rewrite_chars (s : str) :
  Forall P s -> Forall P replacement_chars -> Forall P (rewrite s).
Proof.
  intros Hs Ht.
  change replacement_chars
    with (template_chars replacement1 ++ template_chars replacement2
            ++ template_chars replacement3 ++ []) in Ht.
  apply Forall_app in Ht as [H1 Ht]. apply Forall_app in Ht as [H2 Ht].
  apply Forall_app in Ht as [H3 _].
  unfold rewrite, apply_patterns, patterns, re_sub. cbn [fold_left fst snd].
  auto using sub_loop_chars.
Qed.

End CharFacts.

(** X6: the rewritten text is made of characters of the input and of
    characters that the three replacements write; the rules bring in nothing
    else. *)
Theorem rewrite_keeps_alphabet (s : str) :
  Forall (fun c => In c s \/ In c replacement_chars) (rewrite s).
Proof.
  apply rewrite_chars; apply Forall_forall; auto.
Qed.

(* ================================================================== *)
(** ** Line ends *)

Section NewlineFacts.

Lemma universal_newlines_bounded (n : nat) :
  forall s, length s <= n -> ~ In cr (universal_newlines s).
Proof.
  induction n as [|n IH]; intros [|c s] L; simpl in *; try tauto; try lia.
  destruct (N.eqb c 13) eqn:E.
  - destruct s as [|d s'].
    + intros [H|[]]. discriminate.
    + destruct (N.eqb d 10); intros [H|H]; try discriminate;
        revert H; apply IH; simpl in *; lia.
  - intros [H|H].
    + apply N.eqb_neq in E. unfold cr in H. congruence.
    + revert H. apply IH. lia.
Qed.

(** What is read holds no carriage return. *)
Lemma universal_newlines_no_cr (s : str) : ~ In cr (universal_newlines s).
Proof. apply (universal_newlines_bounded (length s)). lia. Qed.

(** A text without carriage returns is read as it is. *)
Lemma universal_newlines_id (s : str) : ~ In cr s -> universal_newlines s = s.
Proof.
  induction s as [|c s IH]; intros H; simpl; [reflexivity|].
  destruct (N.eqb c 13) eqn:E.
  - apply N.eqb_eq in E. exfalso. apply H. left. exact E.
  - f_equal. apply IH. intros I. apply H. right. exact I.
Qed.

Lemma rewrite_no_cr (s : str) : ~ In cr s -> ~ In cr (rewrite s).
Proof.
  intros H I.
  assert (Hs : Forall (fun c => c <> cr) s)
    by (apply Forall_forall; intros c Hc ->; contradiction).
  assert (Ht : Forall (fun c => c <> cr) replacement_chars).
  { apply Forall_forall. intros c Hc ->. revert Hc.
    apply (proj1 (mem_false cr replacement_chars)). reflexivity. }
  pose proof (rewrite_chars (fun c => c <> cr) s Hs Ht) as F.
  rewrite Forall_forall in F. exact (F cr I eq_refl).
Qed.

End NewlineFacts.

(* ================================================================== *)
(** ** One file: what is written, and what is left alone *)

Section UpdateFacts.

Lemma str_eqb_true (a b : str) : str_eqb a b = true -> a = b.
Proof. apply str_eqb_eq. Qed.

Lemma child_set_child_other (c c' : str) (new : node) (es : list (str * node)) :
  str_eqb c' c = false -> child c' (set_child c new es) = child c' es.
Proof.
  intros H. induction es as [|[n m] es IH]; simpl.
  - rewrite H. reflexivity.
  - destruct (str_eqb c n) eqn:E; simpl.
    + apply str_eqb_true in E. subst n. rewrite H. reflexivity.
    + rewrite IH. reflexivity.
Qed.

(** Writing over the file at [names] leaves every other file as it is. *)
Lemma store_other (names : list str) (new : node) :
  forall n n' d0 q d,
    lookup_names n names = Some (File d0) ->
    store names new n = Some n' ->
    q <> names ->
    lookup_names n q = Some (File d) ->
    lookup_names n' q = Some (File d).
Proof.
  induction names as [|c cs IH]; intros n n' d0 q d L S Hq Lq; simpl in *.
  - injection L as ->. destruct q; [contradiction | discriminate].
  - destruct n as [x|es]; [discriminate|].
    destruct (child c es) as [m|] eqn:Hc; [|discriminate].
    destruct q as [|c' qs]; [discriminate|]. simpl in Lq.
    destruct (str_eqb c' c) eqn:E.
    + apply str_eqb_true in E. subst c'. rewrite Hc in Lq.
      destruct cs as [|c2 cs].
      * simpl in L. injection L as ->.
        destruct qs; [contradiction | discriminate].
      * destruct (store (c2 :: cs) new m) as [m'|] eqn:Sm; [|discriminate].
        injection S as <-. simpl. rewrite child_set_child.
        apply (IH m m' d0); auto. congruence.
    + assert (Hn' : exists x, n' = Dir (set_child c x es)).
      { destruct cs; [injection S as <-; eauto|].
        destruct (store _ new m); [injection S as <-; eauto | discriminate]. }
      destruct Hn' as (x & ->). simpl.
      rewrite (child_set_child_other _ _ _ _ E). exact Lq.
Qed.

Lemma shape_trans (a : node) : forall b c, shape a b -> shape b c -> shape a c.
Proof.
  induction a as [d|es IH] using node_induction; intros b c Hab Hbc.
  - inversion Hab; subst. inversion Hbc; subst. constructor. auto.
  - inversion Hab as [|? es1 F1]; subst. inversion Hbc as [|? es2 F2]; subst.
    constructor. clear Hab Hbc. revert es2 F2.
    induction F1 as [|e e1 es es1 [Hn Hs] _ IHF]; intros es2 F2;
      inversion F2 as [|? e2 ? es2' [Hn2 Hs2] F2']; subst; constructor.
    + inversion IH; subst. split; [congruence | eauto].
    + inversion IH; subst. auto.
Qed.

(** What [replace_print_statements] does with a path that names no file
    that decodes: it raises, and writes nothing. *)
Lemma replace_print_statements_fails (path : str) (w : world) :
  readable (disk w) path = false ->
  exists e events,
    replace_print_statements path w
    = (Raise e, World (disk w) (stdout w) (trace w ++ events))
    /\ (events = [] \/ events = [Read path])
    /\ forall code, e <> SystemExit code.
Proof.
  unfold readable, replace_print_statements, bind, read_file. intros H.
  destruct (resolve (disk w) path) as [[[text|]|es]|]; try discriminate.
  - exists UnicodeDecodeError, [Read path]. repeat split; auto. discriminate.
  - exists OSError, []. rewrite app_nil_r. destruct w. repeat split; auto. discriminate.
  - exists OSError, []. rewrite app_nil_r. destruct w. repeat split; auto. discriminate.
Qed.

End UpdateFacts.

(** X7: what [replace_print_statements] writes holds no carriage return:
    the text is read with every line end as a line feed, the rules bring none
    in, and so a file that is changed is written back with line feeds only. *)
Theorem written_without_carriage_return (file_path : str) (w : world) (text : str) :
  resolve (disk w) file_path = Some (File (Utf8 text)) ->
  exists w',
    replace_print_statements file_path w
    = (Return (changed (universal_newlines text)), w')
    /\ forall q c,
         In (Write q c) (trace w') ->
         In (Write q c) (trace w) \/ (q = file_path /\ ~ In cr c).
Proof.
  intros R.
  destruct (replace_print_statements_text _ _ _ R) as (w' & E & _ & _ & Ht & Hf).
  exists w'. split; [exact E|]. intros q c I.
  destruct (changed (universal_newlines text)).
  - destruct (Ht eq_refl) as [T _]. rewrite T in I.
    apply in_app_or in I as [I|[I|[I|[]]]]; [auto | discriminate |].
    injection I as <- <-. right. split; [reflexivity|].
    apply rewrite_no_cr, universal_newlines_no_cr.
  - destruct (Hf eq_refl) as [T _]. rewrite T in I.
    apply in_app_or in I as [I|[I|[]]]; [auto | discriminate].
Qed.

Lemma written_without_carriage_return_witness :
  exists w',
    replace_print_statements (py "src/a.swift")
      (World (Examples.project (Utf8 (Examples.plain ++ [cr; 10%N]))) [] [])
    = (Return true, w')
    /\ forall q c,
         In (Write q c) (trace w') ->
         In (Write q c) [] \/ (q = py "src/a.swift" /\ ~ In cr c).
Proof.
  exact (written_without_carriage_return (py "src/a.swift")
           (World (Examples.project (Utf8 (Examples.plain ++ [cr; 10%N]))) [] [])
           (Examples.plain ++ [cr; 10%N]) eq_refl).
Defined.

(** X8: after [replace_print_statements] has changed a file, the path
    names a file that holds the rewritten text, and a second call on the same
    path reads that text back: it returns whether the rules change it once
    more. *)
Theorem replace_reads_back (file_path : str) (w : world) (text : str) :
  resolve (disk w) file_path = Some (File (Utf8 text)) ->
  changed (universal_newlines text) = true ->
  exists w',
    replace_print_statements file_path w = (Return true, w')
    /\ resolve (disk w') file_path
       = Some (File (Utf8 (rewrite (universal_newlines text))))
    /\ exists w'',
         replace_print_statements file_path w'
         = (Return (changed (rewrite (universal_newlines text))), w'').
Proof.
  intros R C.
  destruct (replace_print_statements_text _ _ _ R) as (w' & E & _ & S & Ht & _).
  rewrite C in E. destruct (Ht C) as [_ L].
  assert (R' : resolve (disk w') file_path
               = Some (File (Utf8 (rewrite (universal_newlines text))))).
  { destruct (resolve_shape _ _ _ _ S R) as (m' & Rm & _).
    rewrite Rm. apply resolve_names in Rm. congruence. }
  exists w'. split; [exact E|]. split; [exact R'|].
  destruct (replace_print_statements_text _ _ _ R') as (w'' & E' & _).
  rewrite universal_newlines_id in E'
    by (apply rewrite_no_cr, universal_newlines_no_cr).
  exists w''. exact E'.
Qed.

Lemma replace_reads_back_witness :
  exists w',
    replace_print_statements (py "src/a.swift")
      (World (Examples.project (Utf8 Examples.plain)) [] [])
    = (Return true, w')
    /\ resolve (disk w') (py "src/a.swift")
       = Some (File (Utf8 (rewrite (universal_newlines Examples.plain))))
    /\ exists w'',
         replace_print_statements (py "src/a.swift") w'
         = (Return (changed (rewrite (universal_newlines Examples.plain))), w'').
Proof.
  apply (replace_reads_back (py "src/a.swift")
           (World (Examples.project (Utf8 Examples.plain)) [] [])
           Examples.plain); vm_compute; reflexivity.
Defined.

(** X9: whatever [replace_print_statements] does, it returns or raises, the
    tree keeps its directories and its names, and every file other than the
    one at [file_path] holds what it held. *)
Theorem replace_leaves_others (file_path : str) (w : world) :
  shape (disk w) (disk (snd (replace_print_statements file_path w)))
  /\ forall q d,
       resolve (disk w) q = Some (File d) ->
       normalize [] (split q) <> normalize [] (split file_path) ->
       resolve (disk (snd (replace_print_statements file_path w))) q
       = Some (File d).
Proof.
  destruct (readable (disk w) file_path) eqn:Hr.
  - unfold readable in Hr.
    destruct (resolve (disk w) file_path) as [[[text|]|]|] eqn:R; try discriminate.
    destruct (replace_print_statements_text _ _ _ R) as (w' & E & _ & S & Ht & Hf).
    rewrite E. simpl. split; [exact S|]. intros q d Rq Hq.
    destruct (changed (universal_newlines text)) eqn:C.
    + destruct (resolve_shape _ _ _ _ S Rq) as (m' & Rm & _). rewrite Rm.
      apply resolve_names in Rm. apply resolve_names in Rq.
      pose proof (resolve_names _ _ _ R) as Rp.
      assert (St : exists n', store (normalize [] (split file_path))
                                (File (Utf8 (rewrite (universal_newlines text))))
                                (disk w) = Some n' /\ disk w' = n').
      { revert E. unfold replace_print_statements, bind.
        rewrite (read_file_text _ _ _ R).
        fold (rewrite (universal_newlines text)).
        fold (changed (universal_newlines text)). rewrite C.
        unfold write_file. simpl disk. rewrite R.
        destruct (store _ _ (disk w)) as [n'|]; [|discriminate].
        intros [= <-]. eauto. }
      destruct St as (n' & St & En). rewrite En in Rm.
      rewrite (store_other _ _ _ _ _ _ _ Rp St Hq Rq) in Rm. congruence.
    + destruct (Hf eq_refl) as [_ ->]. exact Rq.
  - destruct (replace_print_statements_fails _ _ Hr) as (e & events & -> & _).
    simpl. split; [apply shape_refl | auto].
Qed.

Lemma replace_leaves_others_witness :
  resolve
    (disk (snd (replace_print_statements (py "src/a.swift")
                  (World (Examples.project (Utf8 Examples.plain)) [] []))))
    (py "src/notes.txt")
  = Some (File (Utf8 Examples.plain)).
Proof.
  apply (proj2 (replace_leaves_others (py "src/a.swift")
                  (World (Examples.project (Utf8 Examples.plain)) [] []))).
  - reflexivity.
  - vm_compute. discriminate.
Defined.

(* ================================================================== *)
(** ** The loop over the files, whatever happens *)

Section LoopFacts.

Lemma written_paths_app (a b : list event) :
  written_paths (a ++ b) = written_paths a ++ written_paths b.
Proof.
  induction a as [|[p|p c] a IH]; simpl; [reflexivity | exact IH |].
  rewrite IH. reflexivity.
Qed.

Lemma read_paths_app (a b : list event) :
  read_paths (a ++ b) = read_paths a ++ read_paths b.
Proof.
  induction a as [|[p|p c] a IH]; simpl; [reflexivity | | exact IH].
  rewrite IH. reflexivity.
Qed.

(** One call of [replace_print_statements], in all its outcomes. *)
Lemma replace_outcome (path : str) (w : world) :
  exists r w' events,
    replace_print_statements path w = (r, w')
    /\ trace w' = trace w ++ events
    /\ shape (disk w) (disk w')
    /\ stdout w' = stdout w
    /\ Forall (fun e => event_path e = path) events
    /\ (forall q, readable (disk w') q = readable (disk w) q)
    /\ match r with
       | Return b =>
           written_paths events = (if b then [path] else [])
           /\ read_paths events = [path]
           /\ readable (disk w) path = true
       | Raise e =>
           (forall code, e <> SystemExit code)
           /\ written_paths events = []
           /\ (read_paths events = [] \/ read_paths events = [path])
           /\ readable (disk w) path = false
       end.
Proof.
  destruct (readable (disk w) path) eqn:Hr.
  - unfold readable in Hr.
    destruct (resolve (disk w) path) as [[[text|]|]|] eqn:R; try discriminate.
    pose proof (replace_print_statements_alike _ _ _ R) as A.
    destruct (replace_print_statements_text _ _ _ R) as (w' & E & O & S & Ht & Hf).
    rewrite E in A. simpl in A.
    assert (Q : forall q, readable (disk w') q = readable (disk w) q)
      by (intros q; apply readable_alike, A).
    destruct (changed (universal_newlines text)).
    + destruct (Ht eq_refl) as [T _].
      exists (Return true), w', [Read path; Write path (rewrite (universal_newlines text))].
      repeat split; auto.
    + destruct (Hf eq_refl) as [T _].
      exists (Return false), w', [Read path]. repeat split; auto.
  - destruct (replace_print_statements_fails _ _ Hr) as (e & events & E & Hev & He).
    exists (Raise e), (World (disk w) (stdout w) (trace w ++ events)), events.
    split; [exact E|]. split; [reflexivity|]. split; [apply shape_refl|].
    split; [reflexivity|].
    destruct Hev as [->| ->]; (split; [repeat constructor|]);
      (split; [reflexivity|]); (split; [exact He|]); (split; [reflexivity|]); auto.
Qed.

(** The loop of [main]: what it reads and writes are files of its list, in
    the order of the list.  When it returns, every file of the list was read,
    and each file written has its line printed.  When it raises, it is at one
    file of the list: the files before it were read, the files after it were
    not touched, and the lines of the files written are printed, but for the
    line of that file when it is the line that cannot be printed. *)
Lemma process_trace (files : list str) :
  forall acc w,
  exists r w' events,
    process files acc w = (r, w')
    /\ trace w' = trace w ++ events
    /\ shape (disk w) (disk w')
    /\ Forall (fun e => In (event_path e) files) events
    /\ match r with
       | Return modified =>
           modified = acc ++ written_paths events
           /\ stdout w' = stdout w ++ map modified_file_line (written_paths events)
           /\ read_paths events = files
       | Raise e =>
           (forall code, e <> SystemExit code)
           /\ exists pre bad post printed,
                files = pre ++ bad :: post
                /\ Forall (fun e => In (event_path e) (pre ++ [bad])) events
                /\ (read_paths events = pre \/ read_paths events = pre ++ [bad])
                /\ ((readable (disk w) bad = false
                     /\ written_paths events = printed)
                    \/ (readable (disk w) bad = true /\ encodable bad = false
                        /\ read_paths events = pre ++ [bad]
                        /\ written_paths events = printed ++ [bad]))
                /\ stdout w' = stdout w ++ map modified_file_line printed
       end.
Proof.
  induction files as [|p files IH]; intros acc w.
  - exists (Return acc), w, []. simpl. rewrite !app_nil_r.
    repeat split; auto using shape_refl.
  - destruct (replace_outcome p w)
      as (r1 & w1 & ev1 & E1 & T1 & S1 & O1 & F1 & Q1 & R1).
    assert (F1' : forall l, Forall (fun e => In (event_path e) (p :: l)) ev1).
    { intros l. eapply Forall_impl; [|exact F1]. intros e ->. left. reflexivity. }
    assert (Step : forall acc2 w2,
               disk w2 = disk w1 -> trace w2 = trace w1 ->
               forall printed1,
                 written_paths ev1 = printed1 ->
                 read_paths ev1 = [p] ->
                 acc2 = acc ++ printed1 ->
                 stdout w2 = stdout w ++ map modified_file_line printed1 ->
                 exists r w' events,
                   process files acc2 w2 = (r, w')
                   /\ trace w' = trace w ++ events
                   /\ shape (disk w) (disk w')
                   /\ Forall (fun e => In (event_path e) (p :: files)) events
                   /\ match r with
                      | Return modified =>
                          modified = acc ++ written_paths events
                          /\ stdout w'
                             = stdout w ++ map modified_file_line (written_paths events)
                          /\ read_paths events = p :: files
                      | Raise e =>
                          (forall code, e <> SystemExit code)
                          /\ exists pre bad post printed,
                               p :: files = pre ++ bad :: post
                               /\ Forall (fun e => In (event_path e) (pre ++ [bad]))
                                    events
                               /\ (read_paths events = pre
                                   \/ read_paths events = pre ++ [bad])
                               /\ ((readable (disk w) bad = false
                                    /\ written_paths events = printed)
                                   \/ (readable (disk w) bad = true
                                       /\ encodable bad = false
                                       /\ read_paths events = pre ++ [bad]
                                       /\ written_paths events = printed ++ [bad]))
                               /\ stdout w' = stdout w ++ map modified_file_line printed
                      end).
    { intros acc2 w2 D2 T2 printed1 W1 D1 A2 O2.
      destruct (IH acc2 w2) as (r & w' & ev2 & E2 & T & S & F & R).
      exists r, w', (ev1 ++ ev2).
      split; [exact E2|].
      split; [rewrite T, T2, T1, app_assoc; reflexivity|].
      split; [apply (shape_trans _ _ _ S1); rewrite <- D2; exact S|].
      split.
      { apply Forall_app. split; [apply F1'|].
        eapply Forall_impl; [|exact F]. intros x I. right. exact I. }
      rewrite written_paths_app, read_paths_app, W1, D1.
      destruct r as [modified|e].
      - destruct R as (Rm & Ro & Rr).
        split; [rewrite Rm, A2, <- app_assoc; reflexivity|].
        split; [rewrite Ro, O2, map_app, <- app_assoc; reflexivity|].
        rewrite Rr. reflexivity.
      - destruct R as (He & pre & bad & post & printed & -> & Fp & Rr & Rw & Ro).
        split; [exact He|].
        exists (p :: pre), bad, post, (printed1 ++ printed).
        split; [reflexivity|]. split.
        { apply Forall_app. split; [apply F1'|].
          eapply Forall_impl; [|exact Fp]. intros x I. right. exact I. }
        split; [destruct Rr as [-> | ->]; auto|].
        split.
        { rewrite D2, Q1 in Rw.
          destruct Rw as [[Hb ->] | (Hb & Eb & -> & ->)].
          - left. auto.
          - right. rewrite <- app_assoc. auto. }
        rewrite Ro, O2, map_app, <- app_assoc. reflexivity. }
    simpl process. unfold bind at 1. rewrite E1.
    destruct r1 as [b|e].
    + destruct R1 as (W1 & D1 & Hr1). destruct b.
      * unfold bind at 1. unfold print. rewrite encodable_modified_file_line.
        destruct (encodable p) eqn:Ep.
        -- apply (Step (acc ++ [p])
                    (World (disk w1) (stdout w1 ++ [modified_file_line p]) (trace w1))
                    eq_refl eq_refl [p] W1 D1 eq_refl).
           simpl. rewrite O1. reflexivity.
        -- exists (Raise UnicodeEncodeError), w1, ev1.
           split; [reflexivity|]. split; [exact T1|]. split; [exact S1|].
           split; [apply F1'|]. split; [discriminate|].
           exists [], p, files, []. split; [reflexivity|].
           split; [apply F1'|]. split; [right; exact D1|].
           split; [right; auto|].
           rewrite O1. simpl. rewrite app_nil_r. reflexivity.
      * apply (Step acc w1 eq_refl eq_refl [] W1 D1).
        -- rewrite app_nil_r. reflexivity.
        -- rewrite O1. simpl. rewrite app_nil_r. reflexivity.
    + destruct R1 as (He & W1 & D1 & Hr1).
      exists (Raise e), w1, ev1.
      split; [reflexivity|]. split; [exact T1|]. split; [exact S1|].
      split; [apply F1'|]. split; [exact He|].
      exists [], p, files, []. split; [reflexivity|].
      split; [apply F1'|]. split; [exact D1|].
      split; [left; auto|].
      rewrite O1. simpl. rewrite app_nil_r. reflexivity.
Qed.

End LoopFacts.

(* ================================================================== *)
(** ** A whole run, whatever happens *)

Section RunFacts.

(** A run that passed both checks, in terms of the loop. *)
Lemma run_scan (argv : list str) (root n : node) :
  length argv = 2 -> resolve root (nth 1 argv []) = Some n ->
  run argv root
  = match process (swift_files_of root (nth 1 argv [])) []
            (World root [found_line (length (swift_files_of root (nth 1 argv [])))] [])
    with
    | (Return modified, w') =>
        (0%Z, World (disk w')
                (stdout w' ++ [modified_line (length modified); note_line])
                (trace w'))
    | (Raise e, w') => (exit_status (Raise e), w')
    end.
Proof.
  intros L R. unfold run.
  rewrite (main_scan argv (World root [] []) n L R). simpl.
  destruct (process _ _ _) as [[modified|e] w']; [|reflexivity].
  rewrite <- app_assoc. reflexivity.
Qed.

(** A run that did not pass them. *)
Lemma run_refused (argv : list str) (root : node) :
  length argv <> 2 \/ resolve root (nth 1 argv []) = None ->
  exists out, run argv root = (1%Z, World root out []).
Proof.
  intros H. unfold run. destruct (Nat.eq_dec (length argv) 2) as [L|L].
  - destruct H as [H|H]; [contradiction|].
    rewrite (main_missing_cases argv (World root [] []) L H).
    destruct (encodable (nth 1 argv [])); simpl; eauto.
  - rewrite (main_usage argv (World root [] []) L). simpl. eauto.
Qed.

Lemma exit_status_raise (e : exn) :
  (forall code, e <> SystemExit code) -> exit_status (Raise e) = 1%Z.
Proof. destruct e; intros H; [destruct (H code eq_refl) | reflexivity..]. Qed.

(** The loop on files that hold no [print(] with a double quote: they are
    read, and that is all. *)
Lemma process_print_free (files : list str) :
  forall acc w,
    forallb (print_free (disk w)) files = true ->
    process files acc w
    = (Return acc, World (disk w) (stdout w) (trace w ++ map Read files)).
Proof.
  induction files as [|p files IH]; intros acc w H; simpl in *.
  - rewrite app_nil_r. destruct w; reflexivity.
  - apply andb_true_iff in H as [Hp H]. unfold print_free in Hp.
    destruct (resolve (disk w) p) as [[[text|]|]|] eqn:R; try discriminate.
    apply negb_true_iff in Hp.
    destruct (replace_print_statements_text _ _ _ R) as (w' & E & O & _ & _ & Hf).
    assert (C : changed (universal_newlines text) = false)
      by (apply changed_false, rewrite_without_print, Hp).
    rewrite C in E. destruct (Hf C) as [T D].
    unfold bind at 1. rewrite E. rewrite IH by (rewrite D; exact H).
    rewrite D, O, T, <- app_assoc. reflexivity.
Qed.

End RunFacts.

(** X10: whatever the arguments and the tree, whether the run ends with
    status 0 or not, every file that it reads or writes is one that
    [find_swift_files] returns for the directory, and the tree keeps its
    directories and its names: the run makes, removes and renames nothing. *)
Theorem run_touches_found_only (argv : list str) (root : node) :
  shape root (disk (snd (run argv root)))
  /\ Forall (fun e => In (event_path e) (swift_files_of root (nth 1 argv [])))
       (trace (snd (run argv root))).
Proof.
  destruct (Nat.eq_dec (length argv) 2) as [L|L].
  - destruct (resolve root (nth 1 argv [])) as [n|] eqn:R.
    + rewrite (run_scan argv root n L R).
      destruct (process_trace (swift_files_of root (nth 1 argv [])) []
                  (World root [found_line (length (swift_files_of root (nth 1 argv [])))] []))
        as (r & w' & events & -> & T & S & F & _).
      simpl in T, S. destruct r; simpl; rewrite T; auto.
    + destruct (run_refused argv root (or_intror R)) as (line & ->).
      simpl. split; [apply shape_refl | constructor].
  - destruct (run_refused argv root (or_introl L)) as (line & ->).
    simpl. split; [apply shape_refl | constructor].
Qed.

(** X11: when the run ends with status 0, both checks passed and the report
    is exact: after the count of the files found come the paths of the files
    written, one line each and in the order in which they were written, then
    their number, then the note. *)
Theorem report_is_exact (argv : list str) (root : node) :
  fst (run argv root) = 0%Z ->
  length argv = 2
  /\ resolve root (nth 1 argv []) <> None
  /\ stdout (snd (run argv root))
     = found_line (length (swift_files_of root (nth 1 argv [])))
         :: map modified_file_line (written_paths (trace (snd (run argv root))))
         ++ [modified_line (length (written_paths (trace (snd (run argv root)))));
             note_line].
Proof.
  intros H. destruct (Nat.eq_dec (length argv) 2) as [L|L].
  - destruct (resolve root (nth 1 argv [])) as [n|] eqn:R.
    + split; [exact L|]. split; [discriminate|]. revert H.
      rewrite (run_scan argv root n L R).
      destruct (process_trace (swift_files_of root (nth 1 argv [])) []
                  (World root [found_line (length (swift_files_of root (nth 1 argv [])))] []))
        as (r & w' & events & -> & T & _ & _ & Hr).
      simpl in T. destruct r as [modified|e]; cbn [fst snd stdout trace].
      * intros _. destruct Hr as (Hm & O & _). simpl in O.
        rewrite O, T, Hm. reflexivity.
      * destruct Hr as [He _]. rewrite (exit_status_raise e He). discriminate.
    + destruct (run_refused argv root (or_intror R)) as (line & E).
      rewrite E in H. discriminate.
  - destruct (run_refused argv root (or_introl L)) as (line & E).
    rewrite E in H. discriminate.
Qed.

Lemma report_is_exact_witness :
  length [Examples.script; py "App"] = 2
  /\ resolve Examples.app (nth 1 [Examples.script; py "App"] []) <> None
  /\ stdout (snd (run [Examples.script; py "App"] Examples.app))
     = found_line (length (swift_files_of Examples.app
                             (nth 1 [Examples.script; py "App"] [])))
         :: map modified_file_line
              (written_paths (trace (snd (run [Examples.script; py "App"] Examples.app))))
         ++ [modified_line
               (length (written_paths
                          (trace (snd (run [Examples.script; py "App"] Examples.app)))));
             note_line].
Proof.
  apply (report_is_exact [Examples.script; py "App"] Examples.app).
  vm_compute. reflexivity.
Defined.



(** X13: when both checks passed and every file found decodes and holds no
    [print(] followed by a double quote, the run reads each file found, in
    the order of the scan, writes nothing, leaves the tree as it is, reports
    no file modified and ends with status 0. *)
Theorem run_without_print (argv : list str) (root : node) :
  length argv = 2 -> resolve root (nth 1 argv []) <> None ->
  forallb (print_free root) (swift_files_of root (nth 1 argv [])) = true ->
  run argv root
  = (0%Z,
     World root
       [found_line (length (swift_files_of root (nth 1 argv [])));
        modified_line 0; note_line]
       (map Read (swift_files_of root (nth 1 argv [])))).
Proof.
  intros L R H. destruct (resolve root (nth 1 argv [])) as [n|] eqn:Rn;
    [clear R | contradiction].
  rewrite (run_scan argv root n L Rn).
  rewrite process_print_free by exact H. reflexivity.
Qed.

Lemma run_without_print_witness :
  run [Examples.script; py "src"] (Examples.project (Utf8 (py "let x = 1")))
  = (0%Z,
     World (Examples.project (Utf8 (py "let x = 1")))
       [found_line 1; modified_line 0; note_line]
       [Read (py "src/a.swift")]).
Proof.
  apply (run_without_print [Examples.script; py "src"]
           (Examples.project (Utf8 (py "let x = 1")))).
  - reflexivity.
  - discriminate.
  - vm_compute. reflexivity.
Defined.

(* ================================================================== *)
(** ** The order of the scan *)

Section OrderFacts.

Lemma scan_files_acc (root : str) (files : list str) :
  forall acc,
    scan_files root files acc
    = acc ++ map (os_path_join root)
               (filter (fun file => endswith file dot_swift) files).
Proof.
  induction files as [|f files IH]; intros acc; simpl.
  - rewrite app_nil_r. reflexivity.
  - rewrite IH. destruct (endswith f dot_swift); [|reflexivity].
    simpl. rewrite <- app_assoc. reflexivity.
Qed.

Lemma scan_walk_acc (triples : list (str * list str * list str)) :
  forall acc, scan_walk triples acc = acc ++ scan_walk triples [].
Proof.
  induction triples as [|[[r ds] fs] triples IH]; intros acc; simpl.
  - rewrite app_nil_r. reflexivity.
  - rewrite IH, (IH (scan_files r fs [])), !scan_files_acc.
    rewrite <- app_assoc. reflexivity.
Qed.

Lemma scan_walk_app (a b : list (str * list str * list str)) :
  scan_walk (a ++ b) [] = scan_walk a [] ++ scan_walk b [].
Proof.
  induction a as [|[[r ds] fs] a IH]; simpl; [reflexivity|].
  rewrite (scan_walk_acc (a ++ b) (scan_files r fs [])), IH,
    (scan_walk_acc a (scan_files r fs [])), app_assoc. reflexivity.
Qed.

Lemma scan_walk_flat_map {A} (f : A -> list (str * list str * list str))
  (l : list A) :
  scan_walk (flat_map f l) [] = flat_map (fun x => scan_walk (f x) []) l.
Proof.
  induction l as [|x l IH]; simpl; [reflexivity|].
  rewrite scan_walk_app, IH. reflexivity.
Qed.

End OrderFacts.

(** X14: the scan is top down.  Nothing is found in what is not a
    directory; in a directory, the result is first its own files whose name
    ends in [.swift], in the order of its listing and with the path of the
    directory joined before them, and then what is found in each of its
    entries, in the order of the listing. *)
Lemma swift_files_below_dir (top : str) (es : list (str * node)) :
  swift_files_below top (Dir es)
  = map (os_path_join top)
      (filter (fun file => endswith file dot_swift) (filenames es))
    ++ flat_map (fun e => swift_files_below (os_path_join top (fst e)) (snd e)) es.
Proof.
  unfold swift_files_below. simpl.
  rewrite (scan_walk_acc _ (scan_files top (filenames es) [])), scan_files_acc,
    scan_walk_flat_map. simpl. f_equal.
  apply flat_map_ext. intros [name c]. simpl.
  destruct c; reflexivity.
Qed.

Theorem scan_is_top_down (top : str) :
  (forall root,
     swift_files_of root top
     = match resolve root top with
       | Some n => swift_files_below top n
       | None => []
       end)
  /\ (forall d, swift_files_below top (File d) = [])
  /\ forall es,
       swift_files_below top (Dir es)
       = map (os_path_join top)
           (filter (fun file => endswith file dot_swift) (filenames es))
         ++ flat_map (fun e => swift_files_below (os_path_join top (fst e)) (snd e))
              es.
Proof.
  split; [|split; [reflexivity|]].
  { intros root. unfold swift_files_of, os_walk.
    destruct (resolve root top); reflexivity. }
  apply swift_files_below_dir.
Qed.

(* ================================================================== *)
(** ** The paths of the scan name the files *)

Section JoinFacts.

Lemma split_from_app (a b : str) :
  forall cur,
    split_from cur (a ++ sep :: b) = split_from cur a ++ split_from [] b.
Proof.
  induction a as [|c a IH]; intros cur.
  - reflexivity.
  - cbn [app split_from].
    destruct (N.eqb c sep); [rewrite IH; reflexivity | apply IH].
Qed.

Lemma split_from_name (b : str) :
  forall cur, mem sep b = false -> split_from cur b = [cur ++ b].
Proof.
  induction b as [|c b IH]; intros cur H.
  - rewrite app_nil_r. reflexivity.
  - cbn [mem existsb] in H. apply orb_false_iff in H as [Hc H].
    cbn [split_from]. rewrite N.eqb_sym, Hc.
    rewrite IH by exact H. rewrite <- app_assoc. reflexivity.
Qed.

Lemma valid_name_parts (b : str) :
  valid_name b = true ->
  str_eqb b [] = false /\ str_eqb b (py ".") = false
  /\ str_eqb b (py "..") = false /\ mem sep b = false.
Proof.
  unfold valid_name. intros H.
  repeat (apply andb_true_iff in H as [H ?]).
  repeat split; apply negb_true_iff; assumption.
Qed.

(** A valid name at the end of a path is looked up in the directory that
    the path before it names. *)
Lemma lookup_path_name (b : str) (cs : list str) :
  valid_name b = true ->
  forall up n,
    lookup_path up n (cs ++ [b])
    = match lookup_path up n cs with
      | Some (Dir es) => child b es
      | _ => None
      end.
Proof.
  intros V. destruct (valid_name_parts b V) as (H0 & H1 & H2 & _).
  induction cs as [|c cs IH]; intros up n; simpl.
  - destruct n as [d|es]; [reflexivity|]. rewrite H0, H1, H2. simpl.
    destruct (child b es); reflexivity.
  - destruct n as [d|es]; [reflexivity|].
    destruct (str_eqb c [] || str_eqb c (py ".")); [apply IH|].
    destruct (str_eqb c (py "..")); [destruct up; apply IH|].
    destruct (child c es); [apply IH | reflexivity].
Qed.

(** An empty component at the end of a path asks for a directory. *)
Lemma lookup_path_slash (cs : list str) :
  forall up n,
    lookup_path up n (cs ++ [[]])
    = match lookup_path up n cs with
      | Some (Dir es) => Some (Dir es)
      | _ => None
      end.
Proof.
  induction cs as [|c cs IH]; intros up n; simpl.
  - destruct n; reflexivity.
  - destruct n as [d|es]; [reflexivity|].
    destruct (str_eqb c [] || str_eqb c (py ".")); [apply IH|].
    destruct (str_eqb c (py "..")); [destruct up; apply IH|].
    destruct (child c es); [apply IH | reflexivity].
Qed.

Lemma endswith_sep (a : str) :
  endswith a [sep] = true -> exists a', a = a' ++ [sep].
Proof.
  unfold endswith. intros H. apply andb_true_iff in H as [L H].
  apply str_eqb_true in H. exists (firstn (length a - 1) a).
  rewrite <- H at 1. simpl length. symmetry. apply firstn_skipn.
Qed.

Lemma startswith_name (b : str) :
  valid_name b = true -> startswith b [sep] = false.
Proof.
  intros V. destruct (valid_name_parts b V) as (_ & _ & _ & H).
  destruct b as [|c b]; [reflexivity|]. simpl in *.
  apply orb_false_iff in H as [H _]. rewrite H. reflexivity.
Qed.

(** [os.path.join] of a directory and one of its names is the path of the
    entry. *)
Lemma resolve_join (root : node) (a b : str) (es : list (str * node)) :
  resolve root a = Some (Dir es) -> valid_name b = true ->
  resolve root (os_path_join a b) = child b es.
Proof.
  intros R V. destruct (valid_name_parts b V) as (_ & _ & _ & Hs).
  unfold os_path_join. rewrite (startswith_name b V).
  destruct a as [|x a]; [discriminate|].
  unfold resolve in R. unfold split in R.
  destruct (endswith (x :: a) [sep]) eqn:E.
  - destruct (endswith_sep _ E) as (a' & Ea). rewrite Ea in *.
    rewrite <- app_assoc. simpl app.
    assert (Ne : a' ++ sep :: b <> []) by (destruct a'; discriminate).
    unfold resolve. destruct (a' ++ sep :: b) eqn:Eab; [contradiction|].
    rewrite <- Eab. unfold split.
    rewrite split_from_app, (split_from_name b [] Hs). simpl app at 2.
    rewrite lookup_path_name by exact V.
    change (a' ++ [sep]) with (a' ++ sep :: []) in R.
    rewrite split_from_app in R. simpl split_from in R.
    rewrite lookup_path_slash in R.
    destruct (lookup_path [] root (split_from [] a')) as [[d|es']|];
      try discriminate.
    injection R as ->. reflexivity.
  - change ((x :: a) ++ sep :: b) with (x :: (a ++ sep :: b)).
    unfold resolve, split.
    change (x :: (a ++ sep :: b)) with ((x :: a) ++ sep :: b).
    rewrite split_from_app, (split_from_name b [] Hs). simpl app at 2.
    rewrite lookup_path_name by exact V. rewrite R. reflexivity.
Qed.

Lemma child_in (name : str) (c : node) (es : list (str * node)) :
  NoDup (map fst es) -> In (name, c) es -> child name es = Some c.
Proof.
  induction es as [|[n m] es IH]; intros N I; simpl in *; [contradiction|].
  inversion N as [|? ? Hn N']; subst. destruct I as [[= -> ->]|I].
  - rewrite str_eqb_refl. reflexivity.
  - destruct (str_eqb name n) eqn:E; [|apply IH; assumption].
    apply str_eqb_true in E. subst n. exfalso. apply Hn.
    apply in_map_iff. exists (name, c). auto.
Qed.

(** In a tree as a file system holds it, the path that the scan builds for
    what is [names] below the top names it. *)
Lemma reaches_resolve (root : node) (x : node) (names : list str) (m : node) :
  reaches x names m ->
  forall top, wf x -> resolve root top = Some x ->
              resolve root (path_below top names) = Some m.
Proof.
  induction 1 as [|es name c names m I _ IH]; intros top W R; [exact R|].
  inversion W as [|? N F]; subst. rewrite Forall_forall in F.
  destruct (F _ I) as [V Wc]. simpl in V, Wc.
  unfold path_below. simpl. apply IH; [exact Wc|].
  rewrite (resolve_join root top name es R V). apply child_in; assumption.
Qed.

(** The paths of the scan, as places in the tree. *)
Lemma swift_files_reach (root : node) (directory p : str) :
  In p (swift_files_of root directory) ->
  exists n names name d,
    resolve root directory = Some n
    /\ reaches n (names ++ [name]) (File d)
    /\ endswith name dot_swift = true
    /\ p = path_below directory (names ++ [name]).
Proof.
  unfold swift_files_of, os_walk. rewrite in_scan_walk.
  destruct (resolve root directory) as [n|].
  - intros [[]|(r & ds & fs & file & T & F & E & ->)].
    apply in_walk in T as (names & es & Hr & -> & -> & ->).
    apply in_filenames in F as (d & F).
    exists n, names, file, d. repeat split.
    + eapply reaches_app; [exact Hr|]. econstructor; [exact F | constructor].
    + exact E.
    + symmetry. apply path_below_app.
  - intros [[]|(r & ds & fs & file & [] & _)].
Qed.

End JoinFacts.

Section WfFacts.

Lemma nodupb_nodup (l : list str) : nodupb l = true -> NoDup l.
Proof.
  induction l as [|x l IH]; simpl; intros H; constructor;
    apply andb_true_iff in H as [Hx H]; [|apply IH, H].
  intros I. apply negb_true_iff in Hx.
  assert (E : existsb (str_eqb x) l = true)
    by (apply existsb_exists; exists x; auto using str_eqb_refl).
  congruence.
Qed.

Lemma wfb_wf (n : node) : wfb n = true -> wf n.
Proof.
  induction n as [d|es IH] using node_induction; intros H; constructor;
    simpl in H; apply andb_true_iff in H as [N F].
  - apply nodupb_nodup, N.
  - rewrite forallb_forall in F. rewrite Forall_forall in *.
    intros [name c] I. specialize (F _ I). simpl in F.
    apply andb_true_iff in F as [V W]. split; [exact V | apply (IH _ I), W].
Qed.

End WfFacts.

(** X15: in a tree as a file system holds it, with valid names and no name
    twice in a directory, every path that [find_swift_files] returns names a
    regular file of the tree, so that [replace_print_statements] finds it. *)
Theorem found_paths_name_files (root : node) (directory : str) (n : node) :
  resolve root directory = Some n -> wf n ->
  Forall (fun p => exists d, resolve root p = Some (File d))
    (swift_files_of root directory).
Proof.
  intros R W. apply Forall_forall. intros p I.
  apply swift_files_reach in I as (n' & names & name & d & R' & Hr & _ & ->).
  rewrite R in R'. injection R' as <-.
  exists d. exact (reaches_resolve root n _ _ Hr directory W R).
Qed.

Lemma found_paths_name_files_witness :
  Forall (fun p => exists d, resolve Examples.app p = Some (File d))
    (swift_files_of Examples.app (py "App/Views/")).
Proof.
  apply (found_paths_name_files Examples.app (py "App/Views/")
           (Dir [ (py "Deep",
                   Dir [ (py "Cell.swift", File (Utf8 Examples.bracketed));
                         (py "Cell.swift.bak", File (Utf8 Examples.bracketed)) ]);
                  (py "old.swift",
                   Dir [ (py "notes.txt", File (Utf8 Examples.plain)) ]) ])).
  - reflexivity.
  - apply wfb_wf. reflexivity.
Defined.

(* ================================================================== *)
(** ** No file twice *)

Section NoDupFacts.

Lemma join_valid (top b : str) :
  valid_name b = true -> os_path_join top b = dir_prefix top ++ b.
Proof.
  intros V. unfold os_path_join, dir_prefix. rewrite (startswith_name b V).
  destruct top as [|x top]; [reflexivity|].
  destruct (endswith (x :: top) [sep]); [reflexivity|].
  rewrite <- app_assoc. reflexivity.
Qed.

Lemma name_last (b : str) :
  valid_name b = true -> exists b' z, b = b' ++ [z] /\ z <> sep.
Proof.
  intros V. destruct (valid_name_parts b V) as (H0 & _ & _ & Hs).
  destruct (exists_last (l := b)) as (b' & z & E).
  { intros ->. discriminate. }
  exists b', z. split; [exact E|]. intros ->.
  apply mem_false in Hs. apply Hs. rewrite E. apply in_or_app. right. left.
  reflexivity.
Qed.

Lemma endswith_last (a : str) (z : char) :
  z <> sep -> endswith (a ++ [z]) [sep] = false.
Proof.
  intros H. unfold endswith. rewrite length_app. simpl length.
  replace (length a + 1 - 1) with (length a) by lia.
  rewrite skipn_app_length. simpl.
  replace (N.eqb z sep) with false by (symmetry; apply N.eqb_neq, H).
  apply andb_false_r.
Qed.

Lemma dir_prefix_join (top name : str) :
  valid_name name = true ->
  dir_prefix (dir_prefix top ++ name) = dir_prefix top ++ name ++ [sep].
Proof.
  intros V. destruct (name_last name V) as (b' & z & -> & Hz).
  unfold dir_prefix at 1.
  destruct (dir_prefix top ++ b' ++ [z]) eqn:E.
  - destruct (dir_prefix top); destruct b'; discriminate.
  - rewrite <- E. rewrite app_assoc, (endswith_last _ z Hz).
    rewrite <- !app_assoc. reflexivity.
Qed.

Lemma app_inv_sep (a b r r' : str) :
  mem sep a = false -> mem sep b = false ->
  a ++ sep :: r = b ++ sep :: r' -> a = b.
Proof.
  revert b; induction a as [|x a IH]; intros [|y b] Ha Hb E.
  - reflexivity.
  - injection E as <- _. apply mem_false in Hb. exfalso. apply Hb. left. reflexivity.
  - injection E as -> _. apply mem_false in Ha. exfalso. apply Ha. left. reflexivity.
  - injection E as <- E. cbn [mem existsb] in Ha, Hb.
    apply orb_false_iff in Ha as [_ Ha].
    apply orb_false_iff in Hb as [_ Hb]. f_equal. eapply IH; eassumption.
Qed.

Lemma filenames_names (es : list (str * node)) (f : str) :
  In f (filenames es) -> In f (map fst es).
Proof.
  intros I. apply in_filenames in I as (d & I).
  apply in_map_iff. exists (f, File d). auto.
Qed.

Lemma filenames_nodup (es : list (str * node)) :
  NoDup (map fst es) -> NoDup (filenames es).
Proof.
  unfold filenames. induction es as [|[n c] es IH]; simpl; intros N;
    [constructor|].
  inversion N as [|? ? Hn N']; subst.
  destruct (negb (is_dir c)); simpl; [|apply IH, N'].
  constructor; [|apply IH, N'].
  intros I. apply Hn. apply in_map_iff in I as (e & Ee & I).
  apply filter_In in I as [I _]. apply in_map_iff. eauto.
Qed.

(** Every path found below [top] starts with [top] and a separator. *)
Lemma below_prefix (n : node) :
  wf n -> forall top p,
    In p (swift_files_below top n) -> exists r, p = dir_prefix top ++ r.
Proof.
  induction n as [d|es IH] using node_induction; intros W top p I.
  - destruct I.
  - inversion W as [|? N F]; subst. rewrite Forall_forall in IH, F.
    rewrite swift_files_below_dir in I. apply in_app_or in I as [I|I].
    + apply in_map_iff in I as (f & <- & I). apply filter_In in I as [I _].
      apply filenames_names, in_map_iff in I as (e & <- & I).
      exists (fst e). apply join_valid, (F _ I).
    + apply in_flat_map in I as (e & Ie & I).
      destruct (F _ Ie) as [V Wc].
      apply (IH _ Ie Wc) in I as (r & ->).
      rewrite (join_valid _ _ V), (dir_prefix_join _ _ V).
      exists (fst e ++ [sep] ++ r). rewrite <- !app_assoc. reflexivity.
Qed.

(** What is found in an entry starts with the directory, the name of the
    entry and a separator. *)
Lemma below_entry (top : str) (e : str * node) (p : str) :
  valid_name (fst e) = true -> wf (snd e) ->
  In p (swift_files_below (os_path_join top (fst e)) (snd e)) ->
  exists r, p = dir_prefix top ++ fst e ++ sep :: r.
Proof.
  intros V W I. apply (below_prefix _ W) in I as (r & ->).
  rewrite (join_valid _ _ V), (dir_prefix_join _ _ V).
  exists r. rewrite <- !app_assoc. reflexivity.
Qed.

Lemma below_nodup (n : node) :
  wf n -> forall top, NoDup (swift_files_below top n).
Proof.
  induction n as [d|es IH] using node_induction; intros W top; [constructor|].
  inversion W as [|? N F]; subst. rewrite Forall_forall in IH, F.
  rewrite swift_files_below_dir. apply NoDup_app.
  - apply NoDup_map_NoDup_ForallPairs; [|apply NoDup_filter, filenames_nodup, N].
    intros x y Ix Iy E.
    apply filter_In in Ix as [Ix _]. apply filter_In in Iy as [Iy _].
    apply filenames_names, in_map_iff in Ix as (ex & <- & Ix).
    apply filenames_names, in_map_iff in Iy as (ey & <- & Iy).
    rewrite !join_valid in E by (apply F; assumption).
    exact (app_inv_head _ _ _ E).
  - clear W. induction es as [|e es IHes]; simpl; [constructor|].
    inversion N as [|? ? Hn N']; subst.
    assert (Fe := F e (or_introl eq_refl)). destruct Fe as [Ve We].
    apply NoDup_app.
    + apply IH; [left; reflexivity | exact We].
    + apply IHes; [intros; apply IH; auto; right; assumption
                  | exact N' | intros; apply F; right; assumption].
    + intros p I J. apply in_flat_map in J as (e' & Ie' & J).
      destruct (F e' (or_intror Ie')) as [Ve' We'].
      apply (below_entry top e p Ve We) in I as (r & ->).
      apply (below_entry top e' _ Ve' We') in J as (r' & J).
      apply app_inv_head in J.
      apply app_inv_sep in J;
        try (apply valid_name_parts; assumption).
      apply Hn. rewrite J. apply in_map. exact Ie'.
  - intros p I J. apply in_map_iff in I as (f & <- & I).
    apply filter_In in I as [I _].
    apply filenames_names, in_map_iff in I as (ef & <- & If).
    destruct (F _ If) as [Vf _].
    apply in_flat_map in J as (e & Ie & J). destruct (F _ Ie) as [Ve We].
    apply (below_entry top e _ Ve We) in J as (r & J).
    rewrite (join_valid _ _ Vf) in J. apply app_inv_head in J.
    destruct (valid_name_parts _ Vf) as (_ & _ & _ & Hs).
    apply mem_false in Hs. apply Hs. rewrite J. apply in_or_app. right. left.
    reflexivity.
Qed.

End NoDupFacts.

(** X16: in a tree as a file system holds it, with valid names and no name
    twice in a directory, [find_swift_files] returns no path twice: no file
    is read or rewritten a second time in a run. *)
Theorem found_paths_distinct (root : node) (directory : str) (n : node) :
  resolve root directory = Some n -> wf n ->
  NoDup (swift_files_of root directory).
Proof.
  intros R W. unfold swift_files_of, os_walk. rewrite R.
  exact (below_nodup n W directory).
Qed.

Lemma found_paths_distinct_witness :
  NoDup (swift_files_of Examples.app (py "App")).
Proof.
  apply (found_paths_distinct Examples.app (py "App")
           (Dir [ (py "Main.swift", File (Utf8 Examples.plain));
                  (py "README.md", File (Utf8 Examples.plain));
                  (py "Views",
                   Dir [ (py "Deep",
                          Dir [ (py "Cell.swift", File (Utf8 Examples.bracketed));
                                (py "Cell.swift.bak", File (Utf8 Examples.bracketed)) ]);
                         (py "old.swift",
                          Dir [ (py "notes.txt", File (Utf8 Examples.plain)) ]) ]) ])).
  - reflexivity.
  - apply wfb_wf. reflexivity.
Defined.

(** X17: where the first pattern matches, the text reads [print(], a double
    quote, a tag in square brackets, white space, a message, a double quote
    and a closing parenthesis; the tag
    is not empty and holds no closing bracket, so that it ends at the first
    one, and the message is not empty and holds no double quote.  The groups
    are the tag and the message. *)
Theorem bracket_match_shape (s rest : str) (g : marks) :
  match_at pattern1 s = Some (rest, g) ->
  exists tag ws message,
    s = print_open ++ ch "[" :: tag ++ ch "]" :: ws ++ message ++ dq :: ch ")" :: rest
    /\ tag <> [] /\ mem (ch "]") tag = false
    /\ forallb isspace ws = true
    /\ message <> [] /\ mem dq message = false
    /\ g = [(2, message); (1, tag)].
Proof.
  intros H. unfold match_at, pattern1 in H. rewrite exec_lits in H.
  destruct (startswith s print_open) eqn:P; [|discriminate].
  apply startswith_split in P.
  apply exec_lit in H as (s2 & E1 & H).
  rewrite exec_open in H. apply exec_many in H as (n1 & Hn1 & H).
  rewrite exec_close in H. unfold close_group, open_group, initial in H.
  cbn [lookup opened closed Nat.eqb] in H.
  rewrite group_text in H by (pose proof (span_le (NotIn [ch "]"]) s2); lia).
  apply exec_lit in H as (s3 & E2 & H).
  apply exec_many in H as (n2 & Hn2 & H).
  rewrite exec_open in H. apply exec_many in H as (n3 & Hn3 & H).
  rewrite exec_close in H. unfold close_group, open_group in H.
  cbn [lookup opened closed Nat.eqb] in H.
  rewrite group_text in H
    by (pose proof (span_le (NotIn [dq]) (skipn n2 s3)); lia).
  apply exec_lit in H as (s5 & E3 & H).
  apply exec_lit in H as (s6 & E4 & H).
  simpl in H. injection H as <- <-.
  exists (firstn n1 s2), (firstn n2 s3), (firstn n3 (skipn n2 s3)).
  split.
  { rewrite P at 1. f_equal. rewrite E1. f_equal.
    rewrite <- (firstn_skipn n1 s2) at 1. f_equal. rewrite E2. f_equal.
    rewrite <- (firstn_skipn n2 s3) at 1. f_equal.
    rewrite <- (firstn_skipn n3 (skipn n2 s3)) at 1. f_equal.
    rewrite E3. f_equal. exact E4. }
  split; [apply (span_firstn_nonempty (NotIn [ch "]"])), Hn1|].
  split; [apply span_firstn_notin, Hn1|].
  split; [apply span_firstn_space, Hn2|].
  split; [apply (span_firstn_nonempty (NotIn [dq])), Hn3|].
  split; [apply span_firstn_notin, Hn3 | reflexivity].
Qed.

Lemma bracket_match_shape_witness :
  exists tag ws message,
    Examples.bracketed
    = print_open ++ ch "[" :: tag ++ ch "]" :: ws ++ message ++ dq :: ch ")" :: []
    /\ tag <> [] /\ mem (ch "]") tag = false
    /\ forallb isspace ws = true
    /\ message <> [] /\ mem dq message = false
    /\ [(2, py "Request failed"); (1, py "Network")] = [(2, message); (1, tag)].
Proof.
  exact (bracket_match_shape Examples.bracketed []
           [(2, py "Request failed"); (1, py "Network")] eq_refl).
Defined.

(* ================================================================== *)
(** ** Where a match can start *)

Section SealFacts.

















End SealFacts.

(* ================================================================== *)
(** ** The rules on a text made of calls *)

Section DocumentFacts.






















End DocumentFacts.

(* ================================================================== *)
(** ** The rewriter on its own output *)



(** A found file whose path standard output cannot encode: the file is
    read and written, printing its line raises, and the run ends with
    status 1 after the count of the files found. *)
Lemma unprintable_path_ends_run :
  run [py "replace_prints.py"; py "src"] Examples.odd_project
  = (1%Z,
     World (Dir [ (py "src", Dir [ (Examples.odd_name, File (Utf8 (rewrite Examples.plain))) ]) ])
           [found_line 1]
           [Read (py "src/" ++ Examples.odd_name);
            Write (py "src/" ++ Examples.odd_name) (rewrite Examples.plain)]).
Proof. vm_compute. reflexivity. Qed.
